(** * Shynese: study-session scheduling, verified against the TypeScript sources

    The development embeds two source files:

    - [src/lib/flashcard-logic.ts]: the in-memory study session
      ([createSession], [nextCharacter], [recordAnswerAndNext],
      [isSessionComplete], [getProgress], [getStats]);
    - [src/lib/storage.ts]: the persistence layer on top of the hosted
      relational store ([getCharacters], [addCharacter], [getStudySession],
      [recordAnswer], [mapRowToCharacter]).

    Modelling conventions.

    - The integer-valued [number] fields (score, attempts, indices, tallies)
      are [Z].  Where the source divides and rounds, the computation goes
      through [JsNumber.number]: a finite value is a rational, next to
      [NaN] and the two infinities, and [/] and [*] round their exact
      result to binary64 (53 bits, to nearest with ties to even, subnormal
      below [2^-1022], infinite from [2^1024] on), as the operators of
      JavaScript do.  [Math.round] is exact on its argument.  An integer
      field stands for the double of the same value, which holds up to
      [2^53]; the sign of zero is not modelled.
    - Timestamps ([Date], ISO strings) are milliseconds since the epoch.
    - The table of the remote store is the list of the rows visible to the
      signed-in user.  A [select ... order by ...] is modelled by its SQL
      meaning: the answer is some permutation of the selected rows that is
      sorted for the requested keys; rows that tie on every requested key
      come in an order the query does not fix. *)

From Stdlib Require Import ZArith QArith Qround Qpower Lia.
From stdpp Require Import base tactics option strings numbers sorting gmap list.

Local Open Scope Z_scope.

(** ** JavaScript numbers *)

Module JsNumber.

Inductive number : Type :=
| Fin (q : Q)
| PosInf
| NegInf
| NaN.

(** An integer seen as a [number]. *)
Definition int (z : Z) : number := Fin (inject_Z z).

Definition Qpositive (q : Q) : bool := negb (Qle_bool q 0).
Definition Qzero (q : Q) : bool := Qeq_bool q 0.

Definition signed_inf (positive : bool) : number :=
  if positive then PosInf else NegInf.

(** *** Rounding to binary64

    The result of an arithmetic operation is the exact result rounded to
    the nearest number of the form [m * 2^e] with [|m| < 2^53] and
    [e >= -1074], ties going to the even [m]; a result that reaches
    [2^1024] in size becomes an infinity. *)

Definition pow2 (e : Z) : Q := (2 ^ e)%Q.

(** For a positive [x], the exponent [k] with [2^(k-1) <= x < 2^k]. *)
Definition mag (x : Q) : Z :=
  let l := Z.log2 (Qnum x) - Z.log2 (Zpos (Qden x)) in
  if Qle_bool (pow2 l) x then l + 1 else l.

(** The exponent of the last of the 53 bits of [x]; [-1074] for the
    subnormal numbers. *)
Definition cexp (x : Q) : Z := Z.max (mag x - 53) (-1074).

(** The nearest integer, ties to even. *)
Definition rne (m : Q) : Z :=
  let f := Qfloor m in
  match (m - inject_Z f ?= 1 # 2)%Q with
  | Lt => f
  | Gt => f + 1
  | Eq => if Z.even f then f else f + 1
  end.

Definition round_pos (x : Q) : Q :=
  (inject_Z (rne (x * pow2 (- cexp x))) * pow2 (cexp x))%Q.

Definition round64 (x : Q) : Q :=
  match (x ?= 0)%Q with
  | Eq => 0%Q
  | Gt => round_pos x
  | Lt => (- round_pos (- x))%Q
  end.

Definition overflows (r : Q) : bool :=
  Qle_bool (pow2 1024) r || Qle_bool r (- pow2 1024).

(** The [number] an operation with the exact result [x] returns. *)
Definition rounded (x : Q) : number :=
  let r := round64 x in
  if overflows r then signed_inf (Qpositive r) else Fin r.

(** [x / y] *)
Definition div (x y : number) : number :=
  match x, y with
  | NaN, _ | _, NaN => NaN
  | Fin a, Fin b =>
      if Qzero b then (if Qzero a then NaN else signed_inf (Qpositive a))
      else rounded (a / b)
  | Fin _, (PosInf | NegInf) => Fin 0%Q
  | PosInf, Fin b => signed_inf (Qle_bool 0 b)
  | NegInf, Fin b => signed_inf (negb (Qle_bool 0 b))
  | (PosInf | NegInf), (PosInf | NegInf) => NaN
  end.

(** [x * y] *)
Definition mul (x y : number) : number :=
  match x, y with
  | NaN, _ | _, NaN => NaN
  | Fin a, Fin b => rounded (a * b)
  | Fin a, PosInf | PosInf, Fin a =>
      if Qzero a then NaN else signed_inf (Qpositive a)
  | Fin a, NegInf | NegInf, Fin a =>
      if Qzero a then NaN else signed_inf (negb (Qpositive a))
  | PosInf, PosInf | NegInf, NegInf => PosInf
  | PosInf, NegInf | NegInf, PosInf => NegInf
  end.

(** [Math.round(x)]: the nearest integer, halves going up. *)
Definition Math_round (x : number) : number :=
  match x with
  | Fin a => int (Qfloor (a + (1 # 2))%Q)
  | other => other
  end.

(** [isNaN(x)] *)
Definition isNaN (x : number) : bool :=
  match x with NaN => true | _ => false end.

(** [Math.max(a, b)] on integers. *)
Definition Math_max (a b : Z) : Z := Z.max a b.

End JsNumber.

Import JsNumber.

(** Nearest integer to the exact quotient [p / q], halves going up, for a
    positive [q]: what rounding gives when [/] and [*] lose nothing. *)
Definition round_half_up (p q : Z) : Z := (2 * p + q) / (2 * q).

(** The integer that [Math.round((i / t) * 100)] computes for
    [0 <= i <= t] and [0 < t]: both operations round to binary64. *)
Definition percent_of (i t : Z) : Z :=
  Qfloor (round64 (round64 (inject_Z i / inject_Z t) * inject_Z 100)
          + (1 # 2))%Q.

(** ** [storage.ts] *)

Module Storage.

Definition timestamp := Z.

(** [interface Character] *)
Record Character : Type := mkCharacter {
  id : string;
  chinese : string;
  pinyin : string;
  english : string;
  category : string;
  score : Z;
  attempts : Z;
  correctCount : Z;
  lastReviewed : timestamp
}.

(** [interface CharacterRow]: a row of the [characters] table. *)
Module Row.
Record CharacterRow : Type := mk {
  id : string;
  user_id : string;
  chinese : string;
  pinyin : string;
  english : string;
  category : string;
  score : Z;
  attempts : Z;
  correct_count : Z;
  last_reviewed : timestamp;
  created_at : timestamp
}.
End Row.
Abbreviation CharacterRow := Row.CharacterRow.

Definition mapRowToCharacter (row : CharacterRow) : Character :=
  {| id := Row.id row;
     chinese := Row.chinese row;
     pinyin := Row.pinyin row;
     english := Row.english row;
     category := Row.category row;
     score := Row.score row;
     attempts := Row.attempts row;
     correctCount := Row.correct_count row;
     lastReviewed := Row.last_reviewed row |}.

(** *** The remote store *)

(** The columns the source orders by. *)
Inductive column : Type := Score | Attempts | CreatedAt.

Definition column_value (c : column) (row : CharacterRow) : Z :=
  match c with
  | Score => Row.score row
  | Attempts => Row.attempts row
  | CreatedAt => Row.created_at row
  end.

(** What the query builder accumulates:
    [.order(column, { ascending })] clauses in call order,
    [.eq('category', c)] and [.limit(n)]. *)
Record Query : Type := mkQuery {
  orders : list (column * bool);
  eq_category : option string;
  row_limit : option nat
}.

(** [supabase.from('characters').select('*')] *)
Definition select_all : Query :=
  {| orders := []; eq_category := None; row_limit := None |}.

Definition order (c : column) (ascending : bool) (q : Query) : Query :=
  {| orders := orders q ++ [(c, ascending)];
     eq_category := eq_category q;
     row_limit := row_limit q |}.

Definition eq_category_filter (c : string) (q : Query) : Query :=
  {| orders := orders q; eq_category := Some c; row_limit := row_limit q |}.

Definition limit (n : nat) (q : Query) : Query :=
  {| orders := orders q; eq_category := eq_category q; row_limit := Some n |}.

(** The sort key of a row: one component per [order] clause, negated for a
    descending clause, compared lexicographically. *)
Definition sort_key (os : list (column * bool)) (row : CharacterRow) : list Z :=
  (λ o : column * bool,
     if o.2 then column_value o.1 row else - column_value o.1 row) <$> os.

Fixpoint lex_le (k1 k2 : list Z) : Prop :=
  match k1, k2 with
  | [], _ => True
  | _ :: _, [] => False
  | a :: k1', b :: k2' => a < b ∨ (a = b ∧ lex_le k1' k2')
  end.

(** [precedes os r1 r2]: [ORDER BY os] lets [r1] come before [r2]. *)
Definition precedes (os : list (column * bool)) (r1 r2 : CharacterRow) : Prop :=
  lex_le (sort_key os r1) (sort_key os r2).

(** The [WHERE] clause. *)
Definition selected (q : Query) (row : CharacterRow) : Prop :=
  match eq_category q with
  | Some c => Row.category row = c
  | None => True
  end.

#[global] Instance selected_dec q row : Decision (selected q row).
Proof. unfold selected. destruct (eq_category q); apply _. Defined.

(** The [LIMIT] clause. *)
Definition bounded (q : Query) (rows : list CharacterRow) : list CharacterRow :=
  match row_limit q with
  | Some n => take n rows
  | None => rows
  end.

(** [{ data, error }] *)
Inductive response : Type :=
| Data (rows : list CharacterRow)
| Error.

(** What the store may answer to a query over [table]: the selected rows in
    an order that respects the [order] clauses, cut at the limit; or an
    error (network, permissions). *)
Inductive answers (table : list CharacterRow) (q : Query) : response → Prop :=
| answers_data sorted :
    filter (selected q) table ≡ₚ sorted →
    StronglySorted (precedes (orders q)) sorted →
    answers table q (Data (bounded q sorted))
| answers_error :
    answers table q Error.

(** One conforming store, for running queries: a merge sort of the selected
    rows. *)
#[global] Instance lex_le_dec : RelDecision lex_le.
Proof.
  intros k1. induction k1 as [|a k1 IH]; intros [|b k2]; simpl; apply _.
Defined.

#[global] Instance precedes_dec os : RelDecision (precedes os).
Proof. intros r1 r2. unfold precedes. apply _. Defined.

Definition execute (table : list CharacterRow) (q : Query) : response :=
  Data (bounded q (merge_sort (precedes (orders q)) (filter (selected q) table))).

(** *** [storage] *)

(** The query [getCharacters] sends. *)
Definition getCharacters_query : Query := order CreatedAt false select_all.

(** [error ? [] : data.map(mapRowToCharacter)] *)
Definition on_response (resp : response) : list Character :=
  match resp with
  | Error => []
  | Data rows => mapRowToCharacter <$> rows
  end.

(** A string in a condition: the empty string is falsy. *)
Definition truthy (s : string) : bool := negb (String.eqb s "").

(** [category && category !== 'all'], [category] being [undefined] or a
    string. *)
Definition specific_category (category : option string) : option string :=
  match category with
  | Some c => if truthy c && negb (String.eqb c "all") then Some c else None
  | None => None
  end.

(** The query [getStudySession(category)] sends. *)
Definition getStudySession_query (category : option string) : Query :=
  let query := order Attempts false (order Score true select_all) in
  match specific_category category with
  | Some c => eq_category_filter c query
  | None => limit 10 query
  end.

(** [getStudySession(category)] may return [result] over [table]. *)
Definition getStudySession (table : list CharacterRow)
    (category : option string) (result : list Character) : Prop :=
  ∃ resp, answers table (getStudySession_query category) resp ∧
          result = on_response resp.

(** [getCharacters()] may return [result] over [table]. *)
Definition getCharacters (table : list CharacterRow)
    (result : list Character) : Prop :=
  ∃ resp, answers table getCharacters_query resp ∧ result = on_response resp.

(** The argument of [addCharacter]. *)
Record NewCharacter : Type := mkNewCharacter {
  new_chinese : string;
  new_pinyin : string;
  new_english : string;
  new_category : string
}.

(** The columns the table fills in on insert. *)
Record Assigned : Type := mkAssigned {
  assigned_id : string;
  assigned_user_id : string;
  assigned_created_at : timestamp
}.

(** The row [addCharacter] inserts: [newCharacter] completed by the table's
    defaults. *)
Definition inserted_row (character : NewCharacter) (now : timestamp)
    (a : Assigned) : CharacterRow :=
  {| Row.id := assigned_id a;
     Row.user_id := assigned_user_id a;
     Row.chinese := new_chinese character;
     Row.pinyin := new_pinyin character;
     Row.english := new_english character;
     Row.category := new_category character;
     Row.score := 0;
     Row.attempts := 0;
     Row.correct_count := 0;
     Row.last_reviewed := now;
     Row.created_at := assigned_created_at a |}.

(** [addCharacter(character)]: [insert_ok] tells whether the insert went
    through.  Returns the table afterwards and the function's result. *)
Definition addCharacter (character : NewCharacter) (now : timestamp)
    (a : Assigned) (insert_ok : bool) (table : list CharacterRow)
  : list CharacterRow * option Character :=
  if insert_ok
  then let row := inserted_row character now a in
       (table ++ [row], Some (mapRowToCharacter row))
  else (table, None).

(** [.eq('id', id).single()]: the row when exactly one matches. *)
Definition single (id : string) (table : list CharacterRow)
  : option CharacterRow :=
  match filter (λ row, Row.id row = id) table with
  | [row] => Some row
  | _ => None
  end.

(** [.select('score, attempts, correct_count')] *)
Record CurrentData : Type := mkCurrentData {
  cur_score : Z;
  cur_attempts : Z;
  cur_correct_count : Z
}.

Definition counters (row : CharacterRow) : CurrentData :=
  {| cur_score := Row.score row;
     cur_attempts := Row.attempts row;
     cur_correct_count := Row.correct_count row |}.

(** The [updates] object of [recordAnswer]. *)
Record AnswerUpdate : Type := mkAnswerUpdate {
  upd_attempts : Z;
  upd_correct_count : Z;
  upd_score : Z;
  upd_last_reviewed : timestamp
}.

Definition updates (currentData : CurrentData) (isCorrect : bool)
    (now : timestamp) : AnswerUpdate :=
  {| upd_attempts := cur_attempts currentData + 1;
     upd_correct_count :=
       if isCorrect then cur_correct_count currentData + 1
       else cur_correct_count currentData;
     upd_score :=
       if isCorrect then cur_score currentData + 1
       else Math_max 0 (cur_score currentData - 1);
     upd_last_reviewed := now |}.

(** One row after [.update(updates)]. *)
Definition write (u : AnswerUpdate) (row : CharacterRow) : CharacterRow :=
  {| Row.id := Row.id row;
     Row.user_id := Row.user_id row;
     Row.chinese := Row.chinese row;
     Row.pinyin := Row.pinyin row;
     Row.english := Row.english row;
     Row.category := Row.category row;
     Row.score := upd_score u;
     Row.attempts := upd_attempts u;
     Row.correct_count := upd_correct_count u;
     Row.last_reviewed := upd_last_reviewed u;
     Row.created_at := Row.created_at row |}.

(** [.update(updates).eq('id', id)] *)
Definition update_where_id (id : string) (u : AnswerUpdate)
    (table : list CharacterRow) : list CharacterRow :=
  (λ row, if decide (Row.id row = id) then write u row else row) <$> table.

(** [recordAnswer(id, isCorrect)]: [fetch_ok] and [update_ok] tell whether
    the two requests went through; a failed request is logged and the table
    stays as it is. *)
Definition recordAnswer (id : string) (isCorrect : bool) (now : timestamp)
    (fetch_ok update_ok : bool) (table : list CharacterRow)
  : list CharacterRow :=
  if fetch_ok then
    match single id table with
    | None => table
    | Some row =>
        let currentData := counters row in
        if update_ok
        then update_where_id id (updates currentData isCorrect now) table
        else table
    end
  else table.

(** A history of the table: characters added and answers recorded. *)
Inductive call : Type :=
| AddCharacter (character : NewCharacter) (now : timestamp) (a : Assigned)
    (insert_ok : bool)
| RecordAnswer (id : string) (isCorrect : bool) (now : timestamp)
    (fetch_ok update_ok : bool).

Definition perform (table : list CharacterRow) (c : call) : list CharacterRow :=
  match c with
  | AddCharacter character now a ok => (addCharacter character now a ok table).1
  | RecordAnswer id isCorrect now f u => recordAnswer id isCorrect now f u table
  end.

Definition history (calls : list call) : list CharacterRow :=
  foldl perform [] calls.

(** The score-update rule applied to one item, answer after answer. *)
Definition answer_row (row : CharacterRow) (a : bool * timestamp)
  : CharacterRow :=
  write (updates (counters row) a.1 a.2) row.

Definition answered (row : CharacterRow) (answers : list (bool * timestamp))
  : CharacterRow :=
  foldl answer_row row answers.

(** The invariant of the data model on a row. *)
Definition row_invariant (row : CharacterRow) : Prop :=
  Row.correct_count row ≤ Row.attempts row ∧ 0 ≤ Row.score row.

(** The pair the query sorts an item by. *)
Definition order_key (item : Character) : Z * Z := (score item, attempts item).

(** The pair behind a two-component sort key (ascending, descending). *)
Definition key_pair (k : list Z) : Z * Z :=
  match k with
  | [s; a] => (s, - a)
  | _ => (0, 0)
  end.

(** *** The other operations of [storage] *)

(** [deleteCharacter(id)]: [delete_ok] tells whether the request went
    through; a failure is logged. *)
Definition deleteCharacter (id : string) (delete_ok : bool)
    (table : list CharacterRow) : list CharacterRow :=
  if delete_ok then filter (λ row, Row.id row ≠ id) table else table.

(** [Partial<Character>]: [None] for a field that is [undefined]. *)
Record PartialCharacter : Type := mkPartial {
  p_id : option string;
  p_chinese : option string;
  p_pinyin : option string;
  p_english : option string;
  p_category : option string;
  p_score : option Z;
  p_attempts : option Z;
  p_correctCount : option Z;
  p_lastReviewed : option timestamp
}.

(** [interface CharacterUpdate] *)
Record CharacterUpdate : Type := mkCharacterUpdate {
  db_chinese : option string;
  db_pinyin : option string;
  db_english : option string;
  db_category : option string;
  db_score : option Z;
  db_attempts : option Z;
  db_correct_count : option Z;
  db_last_reviewed : option timestamp
}.

(** The [dbUpdates] object [updateCharacter] builds: each field of
    [updates] that is defined, under its column name; [updates.id] is not
    read. *)
Definition dbUpdates (updates : PartialCharacter) : CharacterUpdate :=
  {| db_chinese := p_chinese updates;
     db_pinyin := p_pinyin updates;
     db_english := p_english updates;
     db_category := p_category updates;
     db_score := p_score updates;
     db_attempts := p_attempts updates;
     db_correct_count := p_correctCount updates;
     db_last_reviewed := p_lastReviewed updates |}.

(** One row after [.update(dbUpdates)]: the columns present are written. *)
Definition patch (u : CharacterUpdate) (row : CharacterRow) : CharacterRow :=
  {| Row.id := Row.id row;
     Row.user_id := Row.user_id row;
     Row.chinese := default (Row.chinese row) (db_chinese u);
     Row.pinyin := default (Row.pinyin row) (db_pinyin u);
     Row.english := default (Row.english row) (db_english u);
     Row.category := default (Row.category row) (db_category u);
     Row.score := default (Row.score row) (db_score u);
     Row.attempts := default (Row.attempts row) (db_attempts u);
     Row.correct_count := default (Row.correct_count row) (db_correct_count u);
     Row.last_reviewed := default (Row.last_reviewed row) (db_last_reviewed u);
     Row.created_at := Row.created_at row |}.

(** [updateCharacter(id, updates)] *)
Definition updateCharacter (id : string) (updates : PartialCharacter)
    (update_ok : bool) (table : list CharacterRow) : list CharacterRow :=
  if update_ok
  then (λ row, if decide (Row.id row = id) then patch (dbUpdates updates) row
               else row) <$> table
  else table.

(** A whole [Character] as an [updates] argument. *)
Definition whole (c : Character) : PartialCharacter :=
  {| p_id := Some (id c);
     p_chinese := Some (chinese c);
     p_pinyin := Some (pinyin c);
     p_english := Some (english c);
     p_category := Some (category c);
     p_score := Some (score c);
     p_attempts := Some (attempts c);
     p_correctCount := Some (correctCount c);
     p_lastReviewed := Some (lastReviewed c) |}.

(** The [characterData] of the form, as [handleSaveCharacter] passes it to
    [updateCharacter]. *)
Definition characterData (c : NewCharacter) : PartialCharacter :=
  {| p_id := None;
     p_chinese := Some (new_chinese c);
     p_pinyin := Some (new_pinyin c);
     p_english := Some (new_english c);
     p_category := Some (new_category c);
     p_score := None;
     p_attempts := None;
     p_correctCount := None;
     p_lastReviewed := None |}.

(** [[...new Set(values)]]: the values in the order of their first
    occurrence. *)
Fixpoint set_values (seen values : list string) : list string :=
  match values with
  | [] => []
  | x :: rest =>
      if decide (x ∈ seen) then set_values seen rest
      else x :: set_values (x :: seen) rest
  end.

Definition spread_set (values : list string) : list string :=
  set_values [] values.

Section sort.

(** The order of strings by code units, which [.sort()] compares by. *)
Context (code_unit_le : relation string) `{!RelDecision code_unit_le}.

(** [.sort()] on strings: the sorted arrangement (there is one, the order
    being total). *)
Definition array_sort (values : list string) : list string :=
  merge_sort code_unit_le values.

(** What [getCategories] returns on the answer to
    [.from('characters').select('category')]. *)
Definition getCategories (resp : response) : list string :=
  match resp with
  | Error => []
  | Data rows => array_sort (spread_set (Row.category <$> rows))
  end.

End sort.

(** The query [getCategories] sends: no filter, no order, no limit. *)
Definition getCategories_query : Query := select_all.

(** [sampleCharacters] of [initializeSampleData] *)
Definition sampleCharacters : list NewCharacter :=
  [ mkNewCharacter "你好" "nǐ hǎo" "hello" "Greetings";
    mkNewCharacter "谢谢" "xiè xiè" "thank you" "Greetings";
    mkNewCharacter "水" "shuǐ" "water" "Nature";
    mkNewCharacter "火" "huǒ" "fire" "Nature";
    mkNewCharacter "一" "yī" "one" "Numbers";
    mkNewCharacter "二" "èr" "two" "Numbers";
    mkNewCharacter "三" "sān" "three" "Numbers" ].

(** What happens to one [addCharacter] call. *)
Record InsertIO : Type := mkInsertIO {
  insert_now : timestamp;
  insert_assigned : Assigned;
  insert_ok : bool
}.

(** [for (const char of chars) await this.addCharacter(char)], the call
    for the [i]-th character of the loop ending as [io i] says. *)
Fixpoint add_each (i : nat) (chars : list NewCharacter) (io : nat → InsertIO)
    (table : list CharacterRow) : list CharacterRow :=
  match chars with
  | [] => table
  | char :: rest =>
      add_each (S i) rest io
        (addCharacter char (insert_now (io i)) (insert_assigned (io i))
           (insert_ok (io i)) table).1
  end.

(** [initializeSampleData()], [resp] being the answer to the query of
    [getCharacters]. *)
Definition initializeSampleData (resp : response) (io : nat → InsertIO)
    (table : list CharacterRow) : list CharacterRow :=
  let characters := on_response resp in
  if Nat.eqb (length characters) 0
  then add_each 0 sampleCharacters io table
  else table.

(** The rows a loop of [addCharacter] calls leaves in the table. *)
Fixpoint added_rows (i : nat) (chars : list NewCharacter) (io : nat → InsertIO)
  : list CharacterRow :=
  match chars with
  | [] => []
  | char :: rest =>
      (if insert_ok (io i)
       then [inserted_row char (insert_now (io i)) (insert_assigned (io i))]
       else [])
      ++ added_rows (S i) rest io
  end.

(** The writes the app makes to the table: the two of [call], deleting a
    character, and saving the form of an existing one. *)
Inductive request : Type :=
| Call (c : call)
| Delete (id : string) (delete_ok : bool)
| Edit (id : string) (data : NewCharacter) (update_ok : bool).

Definition serve (table : list CharacterRow) (r : request)
  : list CharacterRow :=
  match r with
  | Call c => perform table c
  | Delete id ok => deleteCharacter id ok table
  | Edit id data ok => updateCharacter id (characterData data) ok table
  end.

Definition served (requests : list request) : list CharacterRow :=
  foldl serve [] requests.

(** The bounds the counters of a row stay within. *)
Definition row_bounds (row : CharacterRow) : Prop :=
  0 ≤ Row.score row ≤ Row.correct_count row ∧
  Row.correct_count row ≤ Row.attempts row.

(** *** Sample tables *)

Definition sample_row (key category : string) (score attempts correct_count : Z)
    (created_at : timestamp) : CharacterRow :=
  {| Row.id := key; Row.user_id := "u-1"; Row.chinese := key;
     Row.pinyin := key; Row.english := key; Row.category := category;
     Row.score := score; Row.attempts := attempts;
     Row.correct_count := correct_count;
     Row.last_reviewed := created_at; Row.created_at := created_at |}.

(** The scenario of the spec: A with score 2 and 5 attempts, B with score 0
    and 3 attempts, C with score 0 and 1 attempt. *)
Definition row_A : CharacterRow := sample_row "A" "Nature" 2 5 2 30.
Definition row_B : CharacterRow := sample_row "B" "Nature" 0 3 0 20.
Definition row_C : CharacterRow := sample_row "C" "Numbers" 0 1 0 10.

(** Two rows that tie on score and attempts, created one after the other. *)
Definition older : CharacterRow := sample_row "old" "Greetings" 0 0 0 1.
Definition newer : CharacterRow := sample_row "new" "Greetings" 0 0 0 2.

(** The order the spec words as "score ascending, attempts descending". *)
Definition study_order (c1 c2 : Character) : Prop :=
  score c1 < score c2 ∨ (score c1 = score c2 ∧ attempts c2 ≤ attempts c1).

End Storage.

Import Storage.

(** ** [flashcard-logic.ts] *)

Module FlashcardLogic.

(** [interface StudySession] *)
Record StudySession : Type := mkSession {
  characters : list Character;
  currentIndex : Z;
  totalCards : Z;
  correctAnswers : Z;
  incorrectAnswers : Z
}.

(** [characters.length] *)
Definition array_length {A} (l : list A) : Z := Z.of_nat (length l).

Definition createSession (cs : list Character) : StudySession :=
  {| characters := cs;
     currentIndex := 0;
     totalCards := array_length cs;
     correctAnswers := 0;
     incorrectAnswers := 0 |}.

(** [null] and the [undefined] of an index below zero are both [None]. *)
Definition getCurrentCharacter (session : StudySession) : option Character :=
  if array_length (characters session) <=? currentIndex session then None
  else if currentIndex session <? 0 then None
  else characters session !! Z.to_nat (currentIndex session).

Definition nextCharacter (session : StudySession) : StudySession :=
  {| characters := characters session;
     currentIndex := currentIndex session + 1;
     totalCards := totalCards session;
     correctAnswers := correctAnswers session;
     incorrectAnswers := incorrectAnswers session |}.

Definition recordAnswerAndNext (session : StudySession) (isCorrect : bool)
  : StudySession :=
  {| characters := characters session;
     currentIndex := currentIndex session + 1;
     totalCards := totalCards session;
     correctAnswers :=
       if isCorrect then correctAnswers session + 1 else correctAnswers session;
     incorrectAnswers :=
       if isCorrect then incorrectAnswers session
       else incorrectAnswers session + 1 |}.

Definition isSessionComplete (session : StudySession) : bool :=
  array_length (characters session) <=? currentIndex session.

Definition getProgress (session : StudySession) : number :=
  if totalCards session =? 0 then int 0
  else Math_round
         (mul (div (int (currentIndex session)) (int (totalCards session)))
              (int 100)).

(** The object [getStats] returns. *)
Record Stats : Type := mkStats {
  total : Z;
  completed : Z;
  correct : Z;
  incorrect : Z;
  accuracy : number;
  remaining : Z
}.

Definition getStats (session : StudySession) : Stats :=
  let accuracy :=
    if 0 <? totalCards session
    then Math_round
           (mul (div (int (correctAnswers session))
                     (int (correctAnswers session + incorrectAnswers session)))
                (int 100))
    else int 0 in
  {| total := totalCards session;
     completed := currentIndex session;
     correct := correctAnswers session;
     incorrect := incorrectAnswers session;
     accuracy := if isNaN accuracy then int 0 else accuracy;
     remaining := totalCards session - currentIndex session |}.

(** How a call ends: with a value, or by throwing. *)
Inductive completion (A : Type) : Type :=
| Returns (value : A)
| Throws.
Arguments Returns {A} value.
Arguments Throws {A}.

(** A call of [recordAnswerAndNext]: the body is an object literal over a
    spread, two additions and two conditionals; it has no [throw] and no
    assertion, so every call returns. *)
Definition call_recordAnswerAndNext (session : StudySession) (isCorrect : bool)
  : completion StudySession :=
  Returns (recordAnswerAndNext session isCorrect).

(** The session part of [handleAnswer] in [pages/Index.tsx], the only caller
    of [recordAnswerAndNext]: the answer is recorded only while there is a
    current character. *)
Definition handleAnswer (session : StudySession) (isCorrect : bool)
  : StudySession :=
  match getCurrentCharacter session with
  | Some _ => recordAnswerAndNext session isCorrect
  | None => session
  end.

(** The operations of the module that return a session. *)
Inductive operation : Type :=
| NextCharacter
| RecordAnswerAndNext (isCorrect : bool).

Definition apply_operation (session : StudySession) (op : operation)
  : StudySession :=
  match op with
  | NextCharacter => nextCharacter session
  | RecordAnswerAndNext isCorrect => recordAnswerAndNext session isCorrect
  end.

(** Sessions reachable from [createSession] by the session operations. *)
Definition run (cs : list Character) (ops : list operation) : StudySession :=
  foldl apply_operation (createSession cs) ops.

#[global] Instance operation_eq_dec : EqDecision operation.
Proof. solve_decision. Defined.

(** Number of [nextCharacter] calls among the operations. *)
Definition skips (ops : list operation) : Z :=
  array_length (filter (λ op, op = NextCharacter) ops).

(** Sessions reachable by answering only. *)
Definition answer (cs : list Character) (answers : list bool) : StudySession :=
  foldl recordAnswerAndNext (createSession cs) answers.

(** Sessions as the page advances them, through [handleAnswer]. *)
Definition handled (cs : list Character) (answers : list bool) : StudySession :=
  foldl handleAnswer (createSession cs) answers.

(** One of the sample characters of [initializeSampleData], as stored. *)
Definition water : Character :=
  {| id := "c-water"; chinese := "shui"; pinyin := "shui3"; english := "water";
     category := "Nature"; score := 0; attempts := 0; correctCount := 0;
     lastReviewed := 0 |}.

(** The shape every session built by [createSession] and advanced while not
    complete has: the cursor is inside [0, totalCards] and [totalCards] is
    the number of characters. *)
Definition in_range (session : StudySession) : Prop :=
  totalCards session = array_length (characters session) ∧
  0 ≤ currentIndex session ≤ totalCards session.

End FlashcardLogic.

Import FlashcardLogic.

(** ** [pages/Index.tsx]: the study page *)

Module IndexPage.

(** The part of the page's state the handlers below read and write, with
    the table of the store they reach through [storage]. *)
Record Page : Type := mkPage {
  store : list CharacterRow;
  session : option StudySession;
  showResults : bool
}.

(** What happens to the two requests of one [storage.recordAnswer] call. *)
Record AnswerIO : Type := mkAnswerIO {
  answered_at : timestamp;
  fetch_ok : bool;
  update_ok : bool
}.

(** [startStudySession], once [storage.getStudySession] has returned
    [studyCharacters]: a session starts only over a list that is not
    empty. *)
Definition startStudySession (studyCharacters : list Character) (p : Page)
  : Page :=
  if 0 <? array_length studyCharacters
  then {| store := store p;
          session := Some (createSession studyCharacters);
          showResults := false |}
  else p.

(** [handleAnswer(isCorrect)] *)
Definition handleAnswer (p : Page) (a : bool * AnswerIO) : Page :=
  match session p with
  | None => p
  | Some s =>
      match getCurrentCharacter s with
      | Some currentCharacter =>
          let updatedSession := recordAnswerAndNext s a.1 in
          {| store :=
               recordAnswer (id currentCharacter) a.1 (answered_at a.2)
                 (fetch_ok a.2) (update_ok a.2) (store p);
             session := Some updatedSession;
             showResults :=
               if isSessionComplete updatedSession then true
               else showResults p |}
      | None => p
      end
  end.

(** [resetSession] *)
Definition resetSession (p : Page) : Page :=
  {| store := store p; session := None; showResults := false |}.

(** One [storage.recordAnswer] call, for a card and the answer given. *)
Definition record_card (table : list CharacterRow)
    (ca : Character * (bool * AnswerIO)) : list CharacterRow :=
  recordAnswer (id ca.1) ca.2.1 (answered_at ca.2.2)
    (fetch_ok ca.2.2) (update_ok ca.2.2) table.

(** What a run of [record_card] calls does to a row, when every request
    goes through: the [updates] of the first card that has the id of the
    row, computed from the row. *)
Fixpoint studied (cards : list (Character * (bool * AnswerIO)))
    (row : CharacterRow) : CharacterRow :=
  match cards with
  | [] => row
  | ca :: rest =>
      if decide (Row.id row = id ca.1)
      then write (updates (counters row) ca.2.1 (answered_at ca.2.2)) row
      else studied rest row
  end.

Section categories.

Context (code_unit_le : relation string) `{!RelDecision code_unit_le}.

(** [[...new Set(characters.map(char => char.category))].sort()] *)
Definition categories (characters : list Character) : list string :=
  array_sort code_unit_le (spread_set (category <$> characters)).

(** [acc[key] = value] on an object created by [{}]: the key ["__proto__"]
    reaches the setter of [Object.prototype], which ignores a number, and
    no property is created. *)
Definition assign (acc : gmap string Z) (key : string) (value : Z)
  : gmap string Z :=
  if decide (key = "__proto__") then acc else <[key := value]> acc.

(** [characters.filter(char => char.category === category).length] *)
Definition count_in (characters : list Character) (c : string) : Z :=
  array_length (filter (λ char, category char = c) characters).

(** [categories.reduce((acc, category) => { acc[category] = ...; return acc },
    {})] *)
Definition characterCounts (characters : list Character) : gmap string Z :=
  foldl (λ acc c, assign acc c (count_in characters c)) ∅
    (categories characters).

End categories.

End IndexPage.

(** ** [components/CategoryFilter.tsx] *)

Module CategoryFilter.

(** [Object.values(characterCounts).reduce((sum, count) => sum + count, 0)] *)
Definition totalCount (characterCounts : gmap string Z) : Z :=
  map_fold (λ _ count sum, sum + count) 0 characterCounts.

(** [characterCounts[category] || 0], for a key the object has as its own
    property or that no prototype defines: a missing property and the count
    0 both show as 0. *)
Definition shown_count (characterCounts : gmap string Z) (c : string) : Z :=
  default 0 (characterCounts !! c).

End CategoryFilter.

(** ** [pages/ManageCharacters.tsx] *)

Module ManageCharacters.

Section filter.

(** [String.prototype.toLowerCase] *)
Context (toLowerCase : string → string).

(** [s.includes(term)] *)
Definition includes (s term : string) : bool :=
  match String.index 0 term s with
  | Some _ => true
  | None => false
  end.

Definition matches (term : string) (char : Character) : bool :=
  includes (toLowerCase (chinese char)) term
  || includes (toLowerCase (pinyin char)) term
  || includes (toLowerCase (english char)) term
  || includes (toLowerCase (category char)) term.

(** [filterCharacters], as a function of the three pieces of state it
    reads; the result is what it passes to [setFilteredCharacters]. *)
Definition filterCharacters (characters : list Character)
    (selectedCategory searchTerm : string) : list Character :=
  let filtered :=
    if negb (String.eqb selectedCategory "all")
    then filter (λ char, category char = selectedCategory) characters
    else characters in
  if truthy searchTerm
  then let term := toLowerCase searchTerm in
       filter (λ char, matches term char = true) filtered
  else filtered.

End filter.

End ManageCharacters.

(** * Facts about numbers *)

Section number_facts.

Lemma int_inj (a b : Z) : int a = int b → a = b.
Proof. unfold int, inject_Z. intros H. by injection H. Qed.

(** ** Powers of two and exponents *)

Lemma pow2_pos e : (0 < pow2 e)%Q.
Proof. apply Qpower_0_lt. reflexivity. Qed.

Lemma pow2_add a b : (pow2 (a + b) == pow2 a * pow2 b)%Q.
Proof. apply Qpower_plus. discriminate. Qed.

Lemma pow2_cancel e : (pow2 (- e) * pow2 e == 1)%Q.
Proof. rewrite <- pow2_add. replace (- e + e) with 0 by lia. reflexivity. Qed.

Lemma pow2_le a b : a <= b -> (pow2 a <= pow2 b)%Q.
Proof. intros H. apply Qpower_le_compat_l; [exact H|discriminate]. Qed.

Lemma pow2_lt a b : a < b -> (pow2 a < pow2 b)%Q.
Proof. intros H. apply Qpower_lt_compat_l; [exact H|reflexivity]. Qed.

Lemma pow2_int e : 0 <= e -> (pow2 e == inject_Z (2 ^ e))%Q.
Proof. intros H. symmetry. apply (Zpower_Qpower 2 e H). Qed.

Lemma Q_as_div (x : Q) : (x == inject_Z (Qnum x) / inject_Z (Zpos (Qden x)))%Q.
Proof. destruct x as [n d]. apply Qmake_Qdiv. Qed.

Lemma pow2_sub_log (a b : Z) : (pow2 (a - b) == pow2 a / pow2 b)%Q.
Proof.
  unfold Qdiv. replace (a - b) with (a + - b) by lia.
  rewrite pow2_add. unfold pow2. by rewrite Qpower_opp.
Qed.

Lemma inject_Z_pos (d : Z) : 0 < d → (0 < inject_Z d)%Q.
Proof. intros H. unfold Qlt. cbn. lia. Qed.

(** [2 ^ (mag x - 1) <= x < 2 ^ mag x] for a positive [x]. *)
Lemma mag_spec (x : Q) :
  (0 < x)%Q → (pow2 (mag x - 1) <= x)%Q ∧ (x < pow2 (mag x))%Q.
Proof.
  intros Hx.
  set (n := Qnum x). set (d := Z.pos (Qden x)).
  assert (Hn : 0 < n).
  { unfold n. destruct x as [xn xd]. unfold Qlt in Hx. cbn in *. lia. }
  assert (Hd : 0 < d) by (unfold d; lia).
  destruct (Z.log2_spec n Hn) as [Hn1 Hn2].
  destruct (Z.log2_spec d Hd) as [Hd1 Hd2].
  pose proof (Z.log2_nonneg n) as Ha. pose proof (Z.log2_nonneg d) as Hb.
  assert (Hdq : (0 < inject_Z d)%Q) by (by apply inject_Z_pos).
  assert (Hxd : (x * inject_Z d == inject_Z n)%Q).
  { rewrite (Q_as_div x) at 1. fold n d. field.
    intros E. rewrite E in Hdq. by apply Qlt_irrefl in Hdq. }
  set (a := Z.log2 n) in *. set (b := Z.log2 d) in *.
  assert (Hlo : (pow2 (a - b - 1) < x)%Q).
  { apply (Qmult_lt_r _ _ (inject_Z d) Hdq). rewrite Hxd.
    apply Qlt_le_trans with (pow2 (a - b - 1) * pow2 (b + 1))%Q.
    - apply Qmult_lt_l; [apply pow2_pos|].
      rewrite pow2_int by lia. rewrite <- Zlt_Qlt.
      replace (Z.succ b) with (b + 1) in Hd2 by lia. exact Hd2.
    - rewrite <- pow2_add. replace (a - b - 1 + (b + 1)) with a by lia.
      rewrite pow2_int by lia. rewrite <- Zle_Qle. exact Hn1. }
  assert (Hhi : (x < pow2 (a - b + 1))%Q).
  { apply (Qmult_lt_r _ _ (inject_Z d) Hdq). rewrite Hxd.
    apply Qlt_le_trans with (pow2 (a - b + 1) * pow2 b)%Q.
    - rewrite <- pow2_add. replace (a - b + 1 + b) with (a + 1) by lia.
      rewrite pow2_int by lia. rewrite <- Zlt_Qlt.
      replace (Z.succ a) with (a + 1) in Hn2 by lia. exact Hn2.
    - apply Qmult_le_l; [apply pow2_pos|].
      rewrite pow2_int by lia. rewrite <- Zle_Qle. exact Hd1. }
  unfold mag. fold n d a b.
  destruct (Qle_bool (pow2 (a - b)) x) eqn:E.
  - apply Qle_bool_iff in E. split.
    + replace (a - b + 1 - 1) with (a - b) by lia. exact E.
    + exact Hhi.
  - split.
    + apply Qlt_le_weak. exact Hlo.
    + apply Qnot_le_lt. intros Hle. apply Qle_bool_iff in Hle. congruence.
Qed.

Lemma mag_le_bound (x : Q) (k : Z) :
  (0 < x)%Q → (x < pow2 k)%Q → mag x <= k.
Proof.
  intros Hx Hk. destruct (mag_spec x Hx) as [Hlo _].
  destruct (Z.le_gt_cases (mag x) k) as [|Hgt]; [done|].
  exfalso. apply (Qlt_irrefl x).
  apply Qlt_le_trans with (pow2 k); [exact Hk|].
  apply Qle_trans with (pow2 (mag x - 1)); [apply pow2_le; lia|exact Hlo].
Qed.

Lemma mag_ge_bound (x : Q) (k : Z) :
  (0 < x)%Q → (pow2 k <= x)%Q → k < mag x.
Proof.
  intros Hx Hk. destruct (mag_spec x Hx) as [_ Hhi].
  destruct (Z.lt_ge_cases k (mag x)) as [|Hge]; [done|].
  exfalso. apply (Qlt_irrefl x).
  apply Qlt_le_trans with (pow2 (mag x)); [exact Hhi|].
  apply Qle_trans with (pow2 k); [apply pow2_le; lia|exact Hk].
Qed.

Lemma mag_mono (x y : Q) : (0 < x)%Q → (x <= y)%Q → mag x <= mag y.
Proof.
  intros Hx Hxy.
  assert (Hy : (0 < y)%Q) by (eapply Qlt_le_trans; eauto).
  apply mag_le_bound; [done|].
  eapply Qle_lt_trans; [exact Hxy|]. by apply mag_spec.
Qed.

Lemma cexp_mono (x y : Q) : (0 < x)%Q → (x <= y)%Q → cexp x <= cexp y.
Proof.
  intros Hx Hxy. unfold cexp. pose proof (mag_mono x y Hx Hxy). lia.
Qed.

(** ** Rounding to the nearest integer, ties to even *)

Lemma rne_bounds (m : Q) : Qfloor m <= rne m <= Qfloor m + 1.
Proof.
  unfold rne. destruct (_ ?= _)%Q; [destruct (Z.even _)|..]; lia.
Qed.

Lemma rne_le_int (m : Q) (K : Z) : (m <= inject_Z K)%Q → rne m <= K.
Proof.
  intros Hm. pose proof (Qfloor_resp_le _ _ Hm) as Hf. rewrite Qfloor_Z in Hf.
  destruct (Z.eq_dec (Qfloor m) K) as [E|NE].
  - assert (Hz : (m - inject_Z (Qfloor m) <= 0)%Q).
    { rewrite E. apply (Qplus_le_l _ _ (inject_Z K)). by ring_simplify. }
    unfold rne. destruct (Qcompare_spec (m - inject_Z (Qfloor m)) (1 # 2))
      as [Heq|Hlt|Hgt]; [| lia |].
    + rewrite Heq in Hz. by apply Qle_not_lt in Hz.
    + exfalso. apply (Qlt_irrefl (1 # 2)).
      eapply Qlt_le_trans; [exact Hgt|].
      eapply Qle_trans; [exact Hz|]. discriminate.
  - pose proof (rne_bounds m). lia.
Qed.

Lemma rne_ge_int (m : Q) (K : Z) : (inject_Z K <= m)%Q → K <= rne m.
Proof.
  intros Hm. pose proof (Qfloor_resp_le _ _ Hm) as Hf. rewrite Qfloor_Z in Hf.
  pose proof (rne_bounds m). lia.
Qed.

Lemma rne_mono (m1 m2 : Q) : (m1 <= m2)%Q → rne m1 <= rne m2.
Proof.
  intros Hm. pose proof (Qfloor_resp_le _ _ Hm) as Hf.
  pose proof (rne_bounds m1) as H1. pose proof (rne_bounds m2) as H2.
  destruct (Z.eq_dec (Qfloor m1) (Qfloor m2)) as [E|NE]; [|lia].
  assert (Hr : (m1 - inject_Z (Qfloor m1) <= m2 - inject_Z (Qfloor m2))%Q).
  { rewrite E. by apply Qplus_le_l. }
  clear H1 H2. unfold rne. rewrite <- E in *.
  set (f := Qfloor m1) in *.
  set (r1 := (m1 - inject_Z f)%Q) in *. set (r2 := (m2 - inject_Z f)%Q) in *.
  assert (Habs : (r2 < r1)%Q → False) by (intros ?; by apply Qle_not_lt in Hr).
  destruct (Qcompare_spec r1 (1 # 2)) as [Heq1|Hlt1|Hgt1];
    destruct (Qcompare_spec r2 (1 # 2)) as [Heq2|Hlt2|Hgt2].
  - lia.
  - exfalso. apply Habs. by rewrite Heq1.
  - destruct (Z.even f); lia.
  - destruct (Z.even f); lia.
  - lia.
  - lia.
  - exfalso. apply Habs. by rewrite Heq2.
  - exfalso. apply Habs. by eapply Qlt_trans.
  - lia.
Qed.

(** ** Rounding to binary64 *)

Lemma scaled_pos (x : Q) (e : Z) : (0 < x)%Q → (0 < x * pow2 e)%Q.
Proof.
  intros Hx. rewrite <- (Qmult_0_l (pow2 e)).
  apply Qmult_lt_compat_r; [apply pow2_pos|done].
Qed.

Lemma round_pos_le (x r : Q) (K : Z) :
  (x <= r)%Q → (r * pow2 (- cexp x) == inject_Z K)%Q → (round_pos x <= r)%Q.
Proof.
  intros Hxr HK. unfold round_pos.
  assert (Hm : rne (x * pow2 (- cexp x)) <= K).
  { apply rne_le_int. rewrite <- HK.
    apply Qmult_le_compat_r; [done|]. apply Qlt_le_weak, pow2_pos. }
  rewrite Zle_Qle in Hm.
  eapply Qle_trans;
    [apply Qmult_le_compat_r; [exact Hm|apply Qlt_le_weak, pow2_pos]|].
  rewrite <- HK, <- Qmult_assoc, pow2_cancel, Qmult_1_r. apply Qle_refl.
Qed.

Lemma round_pos_ge (x r : Q) (K : Z) :
  (r <= x)%Q → (r * pow2 (- cexp x) == inject_Z K)%Q → (r <= round_pos x)%Q.
Proof.
  intros Hxr HK. unfold round_pos.
  assert (Hm : K <= rne (x * pow2 (- cexp x))).
  { apply rne_ge_int. rewrite <- HK.
    apply Qmult_le_compat_r; [done|]. apply Qlt_le_weak, pow2_pos. }
  rewrite Zle_Qle in Hm.
  eapply Qle_trans;
    [|apply Qmult_le_compat_r; [exact Hm|apply Qlt_le_weak, pow2_pos]].
  rewrite <- HK, <- Qmult_assoc, pow2_cancel, Qmult_1_r. apply Qle_refl.
Qed.

Lemma round_pos_mono (x y : Q) :
  (0 < x)%Q → (x <= y)%Q → (round_pos x <= round_pos y)%Q.
Proof.
  intros Hx Hxy.
  assert (Hy : (0 < y)%Q) by (eapply Qlt_le_trans; eauto).
  pose proof (cexp_mono x y Hx Hxy) as Hc.
  destruct (Z.eq_dec (cexp x) (cexp y)) as [E|NE].
  - unfold round_pos. rewrite E.
    apply Qmult_le_compat_r; [|apply Qlt_le_weak, pow2_pos].
    rewrite <- Zle_Qle. apply rne_mono.
    apply Qmult_le_compat_r; [done|]. apply Qlt_le_weak, pow2_pos.
  - pose proof (mag_mono x y Hx Hxy) as Hmag.
    assert (Hey : cexp y = mag y - 53) by (unfold cexp in *; lia).
    assert (Hlt : mag x <= mag y - 1) by (unfold cexp in *; lia).
    assert (Hex : cexp x <= mag y - 1) by (unfold cexp in *; lia).
    destruct (mag_spec x Hx) as [_ Hxhi]. destruct (mag_spec y Hy) as [Hylo _].
    apply Qle_trans with (pow2 (mag y - 1)).
    + apply (round_pos_le x _ (2 ^ (mag y - 1 - cexp x))).
      * apply Qlt_le_weak. eapply Qlt_le_trans; [exact Hxhi|].
        by apply pow2_le.
      * rewrite <- pow2_add, <- pow2_int by lia.
        by replace (mag y - 1 + - cexp x) with (mag y - 1 - cexp x) by lia.
    + apply (round_pos_ge y _ (2 ^ 52)); [done|].
      rewrite <- pow2_add, <- pow2_int by lia.
      by replace (mag y - 1 + - cexp y) with 52 by lia.
Qed.

Lemma round_pos_nonneg (x : Q) : (0 < x)%Q → (0 <= round_pos x)%Q.
Proof.
  intros Hx. unfold round_pos.
  apply Qmult_le_0_compat; [|apply Qlt_le_weak, pow2_pos].
  change 0%Q with (inject_Z 0). rewrite <- Zle_Qle.
  apply rne_ge_int. apply Qlt_le_weak. by apply scaled_pos.
Qed.

Lemma round64_pos (x : Q) : (0 < x)%Q → round64 x = round_pos x.
Proof.
  intros Hx. unfold round64.
  destruct (Qcompare_spec x 0) as [E|Hlt|_]; [| |done].
  - rewrite E in Hx. by apply Qlt_irrefl in Hx.
  - exfalso. apply (Qlt_irrefl 0). by eapply Qlt_trans.
Qed.

Lemma round64_zero (x : Q) : (x == 0)%Q → round64 x = 0%Q.
Proof.
  intros Hx. unfold round64.
  destruct (Qcompare_spec x 0) as [_|Hlt|Hgt]; [done|..];
    rewrite Hx in *; by apply Qlt_irrefl in Hlt || by apply Qlt_irrefl in Hgt.
Qed.

Lemma Q_zero_or_pos (x : Q) : (0 <= x)%Q → (x == 0)%Q ∨ (0 < x)%Q.
Proof.
  intros Hx. destruct (Qcompare_spec x 0) as [E|Hlt|Hgt]; [by left| |by right].
  exfalso. by apply Qle_not_lt in Hx.
Qed.

Lemma round64_nonneg (x : Q) : (0 <= x)%Q → (0 <= round64 x)%Q.
Proof.
  intros [E|Hx]%Q_zero_or_pos.
  - rewrite round64_zero by done. apply Qle_refl.
  - rewrite round64_pos by done. by apply round_pos_nonneg.
Qed.

Lemma round64_mono (x y : Q) :
  (0 <= x)%Q → (x <= y)%Q → (round64 x <= round64 y)%Q.
Proof.
  intros [E|Hx]%Q_zero_or_pos Hxy.
  - rewrite (round64_zero x) by done. apply round64_nonneg.
    by rewrite <- E.
  - assert (Hy : (0 < y)%Q) by (eapply Qlt_le_trans; eauto).
    rewrite !round64_pos by done. by apply round_pos_mono.
Qed.

(** Rounding does not cross a number [K / 2^j] that binary64 holds. *)
Lemma round64_le_dyadic (x : Q) (K j k : Z) :
  (0 <= x)%Q → (x <= inject_Z K * pow2 (- j))%Q → (x < pow2 k)%Q →
  j <= 53 - k → j <= 1074 →
  (round64 x <= inject_Z K * pow2 (- j))%Q.
Proof.
  intros [E|Hx]%Q_zero_or_pos Hle Hk Hj1 Hj2.
  - rewrite round64_zero by done. by rewrite <- E.
  - rewrite round64_pos by done.
    pose proof (mag_le_bound x k Hx Hk) as Hmag.
    assert (Hc : 0 <= - j - cexp x) by (unfold cexp; lia).
    apply (round_pos_le x _ (K * 2 ^ (- j - cexp x))); [done|].
    rewrite inject_Z_mult, <- pow2_int, <- Qmult_assoc, <- pow2_add by done.
    by replace (- j + - cexp x) with (- j - cexp x) by lia.
Qed.

Lemma round64_ge_dyadic (x : Q) (K j : Z) :
  (0 < x)%Q → (inject_Z K * pow2 j <= x)%Q → cexp x <= j →
  (inject_Z K * pow2 j <= round64 x)%Q.
Proof.
  intros Hx Hle Hj. rewrite round64_pos by done.
  apply (round_pos_ge x _ (K * 2 ^ (j - cexp x))); [done|].
  rewrite inject_Z_mult, <- pow2_int, <- Qmult_assoc, <- pow2_add by lia.
  by replace (j + - cexp x) with (j - cexp x) by lia.
Qed.

Lemma round64_comp (x y : Q) :
  (0 <= x)%Q → (x == y)%Q → (round64 x == round64 y)%Q.
Proof.
  intros Hx E.
  assert (Hy : (0 <= y)%Q) by (by rewrite <- E).
  apply Qle_antisym; apply round64_mono; try done;
    rewrite E; apply Qle_refl.
Qed.

Lemma round64_le_int (x : Q) (K : Z) :
  (0 <= x)%Q → (x <= inject_Z K)%Q → K < 2 ^ 53 →
  (round64 x <= inject_Z K)%Q.
Proof.
  intros Hx Hle HK.
  assert (E : (inject_Z K == inject_Z K * pow2 (- 0))%Q)
    by (change (pow2 (- 0)) with 1%Q; by rewrite Qmult_1_r).
  rewrite E. apply (round64_le_dyadic x K 0 53); try lia; try done.
  - by rewrite <- E.
  - eapply Qle_lt_trans; [exact Hle|].
    rewrite pow2_int by lia. by rewrite <- Zlt_Qlt.
Qed.

Lemma rounded_Fin (x : Q) (K : Z) :
  (0 <= x)%Q → (x <= inject_Z K)%Q → K < 2 ^ 53 →
  rounded x = Fin (round64 x).
Proof.
  intros Hx Hle HK. unfold rounded, overflows.
  pose proof (round64_nonneg x Hx) as H0.
  pose proof (round64_le_int x K Hx Hle HK) as H1.
  assert (Hbig : (inject_Z K < pow2 1024)%Q).
  { eapply Qlt_le_trans; [|apply (pow2_le 53 1024); lia].
    rewrite pow2_int by lia. by rewrite <- Zlt_Qlt. }
  destruct (Qle_bool (pow2 1024) (round64 x)) eqn:E1.
  { apply Qle_bool_iff in E1. exfalso. apply (Qlt_irrefl (pow2 1024)).
    eapply Qle_lt_trans; [exact E1|]. by eapply Qle_lt_trans. }
  destruct (Qle_bool (round64 x) (- pow2 1024)) eqn:E2; [|done].
  apply Qle_bool_iff in E2. exfalso. apply (Qlt_irrefl 0).
  eapply Qle_lt_trans; [exact H0|]. eapply Qle_lt_trans; [exact E2|].
  apply (Qplus_lt_l _ _ (pow2 1024)). ring_simplify. apply pow2_pos.
Qed.

Section percent.

Variables i t : Z.
Hypothesis Hi : 0 <= i <= t.
Hypothesis Ht : 0 < t.

Local Abbreviation x := (inject_Z i / inject_Z t)%Q.

Lemma ratio_bounds : (0 <= x)%Q ∧ (x <= 1)%Q.
Proof.
  assert (Htq : (0 < inject_Z t)%Q) by (by apply inject_Z_pos).
  split.
  - apply Qle_shift_div_l; [done|]. rewrite Qmult_0_l.
    change 0%Q with (inject_Z 0). rewrite <- Zle_Qle. lia.
  - apply Qle_shift_div_r; [done|]. rewrite Qmult_1_l.
    rewrite <- Zle_Qle. lia.
Qed.

Lemma quotient_bounds : (0 <= round64 x)%Q ∧ (round64 x <= 1)%Q.
Proof.
  destruct ratio_bounds as [H0 H1]. split; [by apply round64_nonneg|].
  by apply (round64_le_int x 1).
Qed.

Lemma product_bounds :
  (0 <= round64 x * inject_Z 100)%Q ∧
  (round64 x * inject_Z 100 <= inject_Z 100)%Q.
Proof.
  destruct quotient_bounds as [H0 H1]. split.
  - apply Qmult_le_0_compat; [done|discriminate].
  - rewrite <- (Qmult_1_l (inject_Z 100)) at 2.
    apply Qmult_le_compat_r; [done|discriminate].
Qed.

Lemma Math_round_percent :
  Math_round (mul (div (int i) (int t)) (int 100)) = int (percent_of i t).
Proof.
  unfold div, int at 1 2.
  assert (Hz : Qzero (inject_Z t) = false) by (destruct t; try lia; done).
  rewrite Hz.
  destruct ratio_bounds as [H0 H1].
  rewrite (rounded_Fin x 1) by done.
  destruct product_bounds as [H2 H3].
  unfold mul, int at 1. rewrite (rounded_Fin _ 100) by done.
  reflexivity.
Qed.

Lemma percent_of_bounds : 0 <= percent_of i t <= 100.
Proof.
  destruct product_bounds as [H2 H3]. unfold percent_of.
  set (y := (round64 x * inject_Z 100)%Q) in *.
  pose proof (round64_nonneg y H2) as H4.
  pose proof (round64_le_int y 100 H2 H3 ltac:(lia)) as H5.
  split.
  - change 0 with (Qfloor (inject_Z 0)). apply Qfloor_resp_le.
    apply Qle_trans with (round64 y); [done|].
    rewrite <- (Qplus_0_r (round64 y)) at 1.
    apply Qplus_le_r. discriminate.
  - change 100 with (Qfloor (inject_Z 100 + (1 # 2))).
    apply Qfloor_resp_le. by apply Qplus_le_l.
Qed.

End percent.

Lemma round64_one : (round64 1 == 1)%Q.
Proof. vm_compute. reflexivity. Qed.

Lemma round64_hundred : (round64 (inject_Z 100) == inject_Z 100)%Q.
Proof. vm_compute. reflexivity. Qed.

Lemma percent_of_full (t : Z) : 0 < t → percent_of t t = 100.
Proof.
  intros Ht. unfold percent_of.
  assert (E1 : (inject_Z t / inject_Z t == 1)%Q).
  { apply Qmult_inv_r. intros E. apply inject_Z_pos in Ht.
    rewrite E in Ht. by apply Qlt_irrefl in Ht. }
  assert (E2 : (round64 (inject_Z t / inject_Z t) == 1)%Q).
  { rewrite <- round64_one. apply round64_comp; [|done].
    rewrite E1. discriminate. }
  assert (E3 : (round64 (round64 (inject_Z t / inject_Z t) * inject_Z 100)
                == inject_Z 100)%Q).
  { rewrite <- round64_hundred at 2. apply round64_comp.
    - rewrite E2. discriminate.
    - rewrite E2. apply Qmult_1_l. }
  rewrite (Qfloor_comp _ (inject_Z 100 + (1 # 2))); [done|].
  by rewrite E3.
Qed.

Lemma percent_of_zero (t : Z) : 0 < t → percent_of 0 t = 0.
Proof.
  intros Ht. unfold percent_of.
  assert (E1 : (inject_Z 0 / inject_Z t == 0)%Q) by (unfold Qdiv; apply Qmult_0_l).
  rewrite (round64_zero _ E1).
  rewrite (round64_zero (0 * inject_Z 100)) by apply Qmult_0_l.
  reflexivity.
Qed.

(** The percentage grows with the quotient. *)
Lemma percent_of_le (i t j u : Z) :
  0 <= i → 0 < t → 0 < u → i * u <= j * t →
  percent_of i t <= percent_of j u.
Proof.
  intros Hi Ht Hu Hle. unfold percent_of.
  assert (Htq : (0 < inject_Z t)%Q) by (by apply inject_Z_pos).
  assert (Huq : (0 < inject_Z u)%Q) by (by apply inject_Z_pos).
  assert (H0 : (0 <= inject_Z i / inject_Z t)%Q).
  { apply Qle_shift_div_l; [done|]. rewrite Qmult_0_l.
    change 0%Q with (inject_Z 0). rewrite <- Zle_Qle. lia. }
  assert (H1 : (inject_Z i / inject_Z t <= inject_Z j / inject_Z u)%Q).
  { clear - Ht Hu Hle. destruct t as [|p|p]; try lia.
    destruct u as [|q|q]; try lia.
    unfold Qle, Qdiv, Qmult, Qinv, inject_Z. simpl. lia. }
  apply Qfloor_resp_le, Qplus_le_l, round64_mono.
  - apply Qmult_le_0_compat; [by apply round64_nonneg|discriminate].
  - apply Qmult_le_compat_r; [by apply round64_mono|discriminate].
Qed.

Lemma percent_of_mono (i j t : Z) :
  0 <= i → i <= j → 0 < t → percent_of i t <= percent_of j t.
Proof. intros Hi Hij Ht. apply percent_of_le; [done..|nia]. Qed.

(** A quotient up to [1043320 / 2^20], a little below 0.995, rounds to at
    most 99 percent: the two roundings cannot carry it to 99.5. *)
Lemma percent_of_below (i t : Z) :
  0 <= i → 0 < t → 1048576 * i <= 1043320 * t → percent_of i t <= 99.
Proof.
  intros Hi Ht Hb. unfold percent_of.
  assert (Htq : (0 < inject_Z t)%Q) by (apply inject_Z_pos; lia).
  set (x := (inject_Z i / inject_Z t)%Q).
  assert (H0 : (0 <= x)%Q).
  { apply Qle_shift_div_l; [done|]. rewrite Qmult_0_l.
    change 0%Q with (inject_Z 0). rewrite <- Zle_Qle. lia. }
  assert (Hr0 : (inject_Z 1043320 * pow2 (- 20) == 1043320 # 1048576)%Q)
    by (vm_compute; reflexivity).
  assert (H1 : (x <= inject_Z 1043320 * pow2 (- 20))%Q).
  { rewrite Hr0. apply Qle_shift_div_r; [done|].
    unfold Qle. cbn. lia. }
  assert (H2 : (x < pow2 0)%Q).
  { eapply Qle_lt_trans; [exact H1|]. rewrite Hr0. reflexivity. }
  pose proof (round64_le_dyadic x 1043320 20 0 H0 H1 H2 ltac:(lia) ltac:(lia))
    as H3.
  pose proof (round64_nonneg x H0) as H4.
  set (r := round64 x) in *.
  set (y := (r * inject_Z 100)%Q).
  assert (H5 : (0 <= y)%Q) by (apply Qmult_le_0_compat; [done|discriminate]).
  assert (Hs0 : (inject_Z 101887 * pow2 (- 10) == 101887 # 1024)%Q)
    by (vm_compute; reflexivity).
  assert (H6 : (y <= inject_Z 101887 * pow2 (- 10))%Q).
  { unfold y. eapply Qle_trans;
      [apply Qmult_le_compat_r; [exact H3|discriminate]|].
    rewrite Hr0, Hs0. discriminate. }
  assert (H7 : (y < pow2 7)%Q).
  { eapply Qle_lt_trans; [exact H6|]. rewrite Hs0. reflexivity. }
  pose proof (round64_le_dyadic y 101887 10 7 H5 H6 H7 ltac:(lia) ltac:(lia))
    as H8.
  change 99 with (Qfloor ((101887 # 1024) + (1 # 2))).
  apply Qfloor_resp_le, Qplus_le_l. by rewrite <- Hs0.
Qed.

(** Below 200 cards, a card short of the end is below 99.5 percent. *)
Lemma percent_of_short (i t : Z) :
  0 <= i → i < t → t < 200 → percent_of i t <= 99.
Proof. intros Hi Hit Ht. apply percent_of_below; lia. Qed.

(** Less than 99 percent of the cards is not shown as 100. *)
Lemma percent_of_100 (i t : Z) :
  0 <= i → 0 < t → percent_of i t = 100 → 99 * t <= 100 * i.
Proof.
  intros Hi Ht E.
  destruct (Z_le_gt_dec (99 * t) (100 * i)) as [|Hlt]; [done|].
  pose proof (percent_of_below i t Hi Ht ltac:(lia)). lia.
Qed.

(** From 99.5 percent of the cards on, 100 is shown. *)
Lemma percent_of_near (i t : Z) :
  0 <= i <= t → 0 < t → 199 * t <= 200 * i → percent_of i t = 100.
Proof.
  intros Hi Ht Hle.
  pose proof (percent_of_bounds i t Hi Ht) as Hb.
  assert (E : percent_of 199 200 = 100) by (vm_compute; reflexivity).
  pose proof (percent_of_le 199 200 i t ltac:(lia) ltac:(lia) Ht ltac:(lia)).
  lia.
Qed.

(** The two roundings show: [(23 / 40) * 100] is [57.49999999999999] in
    binary64, where the exact value is [57.5]. *)
Example percent_23_40 : percent_of 23 40 = 57.
Proof. vm_compute. reflexivity. Qed.
Example percent_199_200 : percent_of 199 200 = 100.
Proof. vm_compute. reflexivity. Qed.
Example percent_others :
  (percent_of 29 200, percent_of 57 200, percent_of 113 200, percent_of 115 200)
  = (14, 28, 56, 57).
Proof. vm_compute. reflexivity. Qed.

Example percent_exact_23_40 : round_half_up (100 * 23) 40 = 58.
Proof. reflexivity. Qed.

(** [0 / 0] is [NaN], and stays so through [* 100] and [Math.round]. *)
Lemma round_percent_zero_by_zero :
  Math_round (mul (div (int 0) (int 0)) (int 100)) = NaN.
Proof. reflexivity. Qed.

End number_facts.

(** * The study session *)

Section session.

Implicit Types (session : StudySession) (cs : list Character).

Lemma array_length_nonneg {A} (l : list A) : 0 ≤ array_length l.
Proof. unfold array_length. lia. Qed.

Lemma createSession_in_range cs : in_range (createSession cs).
Proof.
  unfold in_range. simpl. pose proof (array_length_nonneg cs). lia.
Qed.

Lemma isSessionComplete_true session :
  isSessionComplete session = true
  ↔ array_length (characters session) ≤ currentIndex session.
Proof. unfold isSessionComplete. apply Z.leb_le. Qed.

Lemma run_snoc cs ops op :
  run cs (ops ++ [op]) = apply_operation (run cs ops) op.
Proof. unfold run. by rewrite foldl_app. Qed.

Lemma skips_snoc ops op :
  skips (ops ++ [op]) = skips ops + (if decide (op = NextCharacter) then 1 else 0).
Proof.
  unfold skips, array_length. rewrite filter_app, length_app.
  rewrite filter_cons, filter_nil. case_decide; simpl; lia.
Qed.

Lemma answer_snoc cs answers b :
  answer cs (answers ++ [b]) = recordAnswerAndNext (answer cs answers) b.
Proof. unfold answer. by rewrite foldl_app. Qed.

Lemma handled_snoc cs answers b :
  handled cs (answers ++ [b]) = handleAnswer (handled cs answers) b.
Proof. unfold handled. by rewrite foldl_app. Qed.

Lemma getProgress_value session :
  0 < totalCards session →
  0 ≤ currentIndex session ≤ totalCards session →
  getProgress session
  = int (percent_of (currentIndex session) (totalCards session)).
Proof.
  intros Ht Hi. unfold getProgress.
  destruct (Z.eqb_spec (totalCards session) 0) as [E|_]; [lia|].
  by apply Math_round_percent.
Qed.

Lemma getProgress_empty session :
  totalCards session = 0 → getProgress session = int 0.
Proof. intros E. unfold getProgress. by rewrite E. Qed.

(** [handleAnswer] advances only while a character is left, so it keeps the
    cursor in range and one tally per step. *)
Lemma handleAnswer_in_range session b :
  in_range session → in_range (handleAnswer session b).
Proof.
  intros [Ht Hi]. unfold handleAnswer, getCurrentCharacter.
  destruct (Z.leb_spec (array_length (characters session))
              (currentIndex session)) as [Hge|Hlt]; [done|].
  destruct (Z.ltb_spec (currentIndex session) 0) as [Hneg|_]; [done|].
  destruct (characters session !! Z.to_nat (currentIndex session)); [|done].
  unfold in_range. simpl. lia.
Qed.

Lemma handled_in_range cs answers : in_range (handled cs answers).
Proof.
  induction answers as [|b answers IH] using rev_ind.
  - apply createSession_in_range.
  - rewrite handled_snoc. by apply handleAnswer_in_range.
Qed.

Lemma handled_tallies cs answers :
  let s := handled cs answers in
  0 ≤ correctAnswers s ∧ 0 ≤ incorrectAnswers s ∧
  correctAnswers s + incorrectAnswers s = currentIndex s.
Proof.
  induction answers as [|b answers IH] using rev_ind; [simpl; lia|].
  rewrite handled_snoc. simpl in IH |- *. unfold handleAnswer.
  destruct (getCurrentCharacter (handled cs answers)); [|done].
  destruct b; simpl; lia.
Qed.

(** The operations keep [totalCards] and never lower a tally. *)
Lemma run_fields cs (ops : list operation) :
  totalCards (run cs ops) = array_length cs ∧
  0 ≤ correctAnswers (run cs ops) ∧ 0 ≤ incorrectAnswers (run cs ops).
Proof.
  induction ops as [|op ops IH] using rev_ind; [cbn; lia|].
  rewrite run_snoc. destruct IH as (Ht & Hc & Hi).
  destruct op as [|[]]; cbn; lia.
Qed.

End session.

(** ** Recording an answer *)

(** C6. [recordAnswerAndNext(session, isCorrect)] returns a session whose
    [currentIndex] is one more than the input's, in which [correctAnswers]
    is one more when the answer is correct and [incorrectAnswers] is one
    more when it is not, the other tally, [characters] and [totalCards]
    being those of the input. *)
Theorem recordAnswerAndNext_effect (session : StudySession) (isCorrect : bool) :
  let s' := recordAnswerAndNext session isCorrect in
  currentIndex s' = currentIndex session + 1 ∧
  correctAnswers s'
    = correctAnswers session + (if isCorrect then 1 else 0) ∧
  incorrectAnswers s'
    = incorrectAnswers session + (if isCorrect then 0 else 1) ∧
  characters s' = characters session ∧
  totalCards s' = totalCards session.
Proof.
  destruct isCorrect; cbn; repeat split; lia.
Qed.

(** C10. [nextCharacter(session)] returns a session with [currentIndex]
    one more and every other field as it was: the cursor moves and no
    answer is recorded, so a session in which the tallies added up to the
    cursor is one in which they no longer do. *)
Theorem nextCharacter_frame (session : StudySession) :
  let s' := nextCharacter session in
  currentIndex s' = currentIndex session + 1 ∧
  characters s' = characters session ∧
  totalCards s' = totalCards session ∧
  correctAnswers s' = correctAnswers session ∧
  incorrectAnswers s' = incorrectAnswers session ∧
  (correctAnswers session + incorrectAnswers session = currentIndex session →
   correct (getStats s') + incorrect (getStats s') ≠ currentIndex s').
Proof.
  cbn. repeat split. lia.
Qed.

Lemma nextCharacter_frame_witness :
  correctAnswers (createSession [water])
    + incorrectAnswers (createSession [water])
    = currentIndex (createSession [water]) ∧
  correct (getStats (nextCharacter (createSession [water])))
    + incorrect (getStats (nextCharacter (createSession [water])))
    ≠ currentIndex (nextCharacter (createSession [water])).
Proof.
  split; [reflexivity|].
  apply (nextCharacter_frame (createSession [water])). reflexivity.
Defined.

(** ** Tallies and cursor *)

(** C5, as the code has it.  In a session reached from [createSession] by
    [recordAnswerAndNext] and [nextCharacter] calls, the cursor is the sum
    of the two tallies plus the number of [nextCharacter] calls: the tallies
    add up to [currentIndex] exactly when [nextCharacter] was not used. *)
Theorem stats_sum_currentIndex (cs : list Character) (ops : list operation) :
  let s := run cs ops in
  correct (getStats s) + incorrect (getStats s) + skips ops = currentIndex s.
Proof.
  induction ops as [|op ops IH] using rev_ind; [reflexivity|].
  rewrite run_snoc, skips_snoc. cbn in IH |- *.
  destruct op as [|[]]; cbn; case_decide; try done; lia.
Qed.

(** C5 fails once [nextCharacter] is among the operations. *)
Lemma stats_sum_after_nextCharacter :
  let s := run [water] [NextCharacter] in
  correct (getStats s) + incorrect (getStats s) = 0 ∧ currentIndex s = 1.
Proof. split; reflexivity. Qed.

(** ** Advancing a complete session *)




(** ** Progress *)




(** The operations round: 23 of 40 cards is shown as 57 percent, the
    product being [57.49999999999999]; likewise at 29, 57, 113 and 115 of
    200 cards. *)
Example getProgress_23_of_40 :
  getProgress (answer (replicate 40 water) (replicate 23 true)) = int 57.
Proof. vm_compute. reflexivity. Qed.

Example getProgress_of_200 :
  map (λ n, getProgress (answer (replicate 200 water) (replicate n true)))
    [29; 57; 113; 115]%nat
  = [int 14; int 28; int 56; int 57].
Proof. vm_compute. reflexivity. Qed.


(** ** Statistics *)

Lemma accuracy_cases (session : StudySession) :
  0 ≤ correctAnswers session → 0 ≤ incorrectAnswers session →
  accuracy (getStats session)
  = if (0 <? totalCards session)
       && (0 <? correctAnswers session + incorrectAnswers session)
    then int (percent_of (correctAnswers session)
                (correctAnswers session + incorrectAnswers session))
    else int 0.
Proof.
  intros Hc Hi. unfold getStats. cbn [accuracy].
  destruct (Z.ltb_spec 0 (totalCards session)) as [Ht|Ht]; [|reflexivity].
  destruct (Z.ltb_spec 0 (correctAnswers session + incorrectAnswers session))
    as [Hn|Hn]; cbn [andb].
  - by rewrite Math_round_percent by lia.
  - assert (correctAnswers session = 0) as -> by lia.
    assert (incorrectAnswers session = 0) as -> by lia.
    reflexivity.
Qed.

(** The accuracy by the tallies alone, when answers are recorded only in a
    session with cards. *)
Lemma accuracy_by_tallies (session : StudySession) :
  0 ≤ correctAnswers session → 0 ≤ incorrectAnswers session →
  (0 < correctAnswers session + incorrectAnswers session →
   0 < totalCards session) →
  accuracy (getStats session)
  = if 0 <? correctAnswers session + incorrectAnswers session
    then Math_round
           (mul (div (int (correctAnswers session))
                     (int (correctAnswers session + incorrectAnswers session)))
                (int 100))
    else int 0.
Proof.
  intros Hc Hi Hcards. rewrite accuracy_cases by done.
  destruct (Z.ltb_spec 0 (correctAnswers session + incorrectAnswers session))
    as [Hn|Hn]; [|by rewrite andb_false_r].
  destruct (Z.ltb_spec 0 (totalCards session)); [|lia].
  cbn [andb]. by rewrite Math_round_percent by lia.
Qed.

(** C7.  In a session whose tallies are not negative and in which answers
    are recorded only when there are cards, the accuracy is
    [round(correct / (correct + incorrect) * 100)] when
    [correct + incorrect > 0] and 0 when [correct + incorrect = 0]; it is
    always an integer between 0 and 100, never [NaN].  The code tests
    [totalCards] and replaces the [NaN] of [0 / 0] by 0, which comes to the
    same.  The sessions the page advances through [handleAnswer] are of this
    kind, and so is every session that the operations of the module reach
    from [createSession] on a list that is not empty. *)
Theorem getStats_accuracy (session : StudySession)
    (cs : list Character) (answers : list bool) (ops : list operation) :
  0 ≤ correctAnswers session → 0 ≤ incorrectAnswers session →
  (0 < correctAnswers session + incorrectAnswers session →
   0 < totalCards session) →
  accuracy (getStats session)
  = (if 0 <? correctAnswers session + incorrectAnswers session
     then Math_round
            (mul (div (int (correctAnswers session))
                      (int (correctAnswers session + incorrectAnswers session)))
                 (int 100))
     else int 0) ∧
  (∃ k, accuracy (getStats session) = int k ∧ 0 ≤ k ≤ 100) ∧
  (let s := handled cs answers in
   accuracy (getStats s)
   = if 0 <? correct (getStats s) + incorrect (getStats s)
     then Math_round
            (mul (div (int (correct (getStats s)))
                      (int (correct (getStats s) + incorrect (getStats s))))
                 (int 100))
     else int 0) ∧
  (cs ≠ [] →
   let s := run cs ops in
   accuracy (getStats s)
   = if 0 <? correct (getStats s) + incorrect (getStats s)
     then Math_round
            (mul (div (int (correct (getStats s)))
                      (int (correct (getStats s) + incorrect (getStats s))))
                 (int 100))
     else int 0).
Proof.
  intros Hc Hi Hcards. split; [|split; [|split]].
  - by apply accuracy_by_tallies.
  - rewrite accuracy_cases by done.
    destruct (0 <? totalCards session); [|exists 0; split; [done|lia]].
    destruct (Z.ltb_spec 0 (correctAnswers session + incorrectAnswers session));
      [|exists 0; split; [done|lia]].
    eexists. split; [reflexivity|]. apply percent_of_bounds; lia.
  - cbn zeta. destruct (handled_tallies cs answers) as (Hc' & Hi' & Hsum).
    destruct (handled_in_range cs answers) as [Ht Hr].
    cbn [correct incorrect getStats].
    apply accuracy_by_tallies; [done..|lia].
  - intros Hcs. cbn zeta. destruct (run_fields cs ops) as (Ht & Hc' & Hi').
    cbn [correct incorrect getStats].
    apply accuracy_by_tallies; [done..|].
    intros _. rewrite Ht. destruct cs; [done|].
    unfold array_length. cbn [length]. lia.
Qed.

Lemma getStats_accuracy_witness :
  accuracy (getStats (answer [water; water; water] [true; false; true]))
  = int 67.
Proof.
  destruct (getStats_accuracy
              (answer [water; water; water] [true; false; true]) [] [] []
              ltac:(cbn; lia) ltac:(cbn; lia) ltac:(intros _; reflexivity))
    as (H & _).
  rewrite H. vm_compute. reflexivity.
Defined.

(** Why answers must come with cards: on the empty session, advanced by one
    correct answer, the tallies add up to 1 and
    [round(1 / 1 * 100)] is 100, while the test on [totalCards] gives 0. *)
Lemma getStats_without_cards :
  let s := answer [] [true] in
  0 < correct (getStats s) + incorrect (getStats s) ∧
  Math_round
    (mul (div (int (correct (getStats s)))
              (int (correct (getStats s) + incorrect (getStats s))))
         (int 100)) = int 100 ∧
  accuracy (getStats s) = int 0.
Proof. repeat split; vm_compute; reflexivity. Qed.

(** The operations round: 23 correct answers of 40 give 57, where the exact
    quotient, 57.5, would round to 58. *)
Example getStats_23_of_40 :
  accuracy (getStats (answer (replicate 40 water)
                        (replicate 23 true ++ replicate 17 false)))
  = int 57.
Proof. vm_compute. reflexivity. Qed.


(** * The store *)

Section score_update.

Implicit Types (table : list CharacterRow) (row : CharacterRow).

Lemma write_id u row : Row.id (write u row) = Row.id row.
Proof. reflexivity. Qed.

(** The rows with a given id, after an update of the same id. *)
Lemma filter_update_where_id (key : string) u table :
  filter (λ row, Row.id row = key) (update_where_id key u table)
  = write u <$> filter (λ row, Row.id row = key) table.
Proof.
  unfold update_where_id.
  induction table as [|row table IH]; [reflexivity|].
  rewrite fmap_cons, (filter_cons _ row).
  destruct (decide (Row.id row = key)) as [Hid|Hid].
  - rewrite filter_cons_True by done. by rewrite fmap_cons, IH.
  - rewrite filter_cons_False by done. exact IH.
Qed.

Lemma single_update_where_id (key : string) u table row :
  single key table = Some row →
  single key (update_where_id key u table) = Some (write u row).
Proof.
  unfold single. rewrite filter_update_where_id.
  destruct (filter _ table) as [|r [|r' rest]]; intros [= ->]; reflexivity.
Qed.

Lemma single_elem_of (key : string) table row :
  single key table = Some row → row ∈ table.
Proof.
  unfold single. intros H.
  destruct (filter _ table) as [|r [|r' rest]] eqn:E; simplify_eq.
  assert (row ∈ filter (λ row, Row.id row = key) table) as Hin
    by (rewrite E; left).
  by apply list_elem_of_filter in Hin as [_ Hin].
Qed.

(** One application of the rule keeps the invariant, whatever row the
    update is written to. *)
Lemma write_updates_invariant row target isCorrect now :
  row_invariant row →
  row_invariant (write (updates (counters row) isCorrect now) target).
Proof.
  unfold row_invariant. intros [Hc Hs].
  destruct isCorrect; cbn -[Z.add Z.sub Math_max]; unfold Math_max; lia.
Qed.

Lemma answer_row_invariant row a :
  row_invariant row → row_invariant (answer_row row a).
Proof. apply write_updates_invariant. Qed.

Lemma inserted_row_invariant character now a :
  row_invariant (inserted_row character now a).
Proof. unfold row_invariant. cbn. lia. Qed.

Lemma answered_snoc row answers a :
  answered row (answers ++ [a]) = answer_row (answered row answers) a.
Proof. unfold answered. by rewrite foldl_app. Qed.

Lemma answered_invariant row answers :
  row_invariant row → row_invariant (answered row answers).
Proof.
  intros Hrow. induction answers as [|a answers IH] using rev_ind; [done|].
  rewrite answered_snoc. by apply answer_row_invariant.
Qed.

Lemma recordAnswer_invariant key isCorrect now fetch_ok update_ok table :
  Forall row_invariant table →
  Forall row_invariant (recordAnswer key isCorrect now fetch_ok update_ok table).
Proof.
  intros Hall. unfold recordAnswer.
  destruct fetch_ok; [|done].
  destruct (single key table) as [row|] eqn:Hrow; [|done].
  destruct update_ok; [|done].
  apply single_elem_of in Hrow.
  assert (row_invariant row) as Hinv
    by (rewrite Forall_forall in Hall; by apply Hall).
  unfold update_where_id. apply Forall_fmap.
  eapply Forall_impl; [exact Hall|]. intros target Htarget. cbn.
  case_decide; [|done]. by apply write_updates_invariant.
Qed.

Lemma perform_invariant table c :
  Forall row_invariant table → Forall row_invariant (perform table c).
Proof.
  intros Hall. destruct c as [character now a ok|key b now f u]; cbn.
  - unfold addCharacter. destruct ok; [|done]. cbn.
    apply Forall_app. split; [done|].
    apply Forall_singleton, inserted_row_invariant.
  - by apply recordAnswer_invariant.
Qed.

Lemma history_snoc calls c :
  history (calls ++ [c]) = perform (history calls) c.
Proof. unfold history. by rewrite foldl_app. Qed.

End score_update.

(** C2. Recording one answer for the item stored under an id adds one to
    [attempts]; a correct answer adds one to [correctCount] and to [score];
    an incorrect one leaves [correctCount] and sets [score] to
    [max(0, score - 1)].  From (0, 0, 0), three incorrect answers give
    score 0, attempts 3, correctCount 0, and a correct answer followed by an
    incorrect one gives score 0, attempts 2, correctCount 1. *)
Theorem recordAnswer_rule (table : list CharacterRow) (key : string)
    (row : CharacterRow) (isCorrect : bool) (now : timestamp)
    (character : NewCharacter) (a : Assigned) :
  single key table = Some row →
  (∃ row',
     single key (recordAnswer key isCorrect now true true table) = Some row' ∧
     let item := mapRowToCharacter row in
     let item' := mapRowToCharacter row' in
     attempts item' = attempts item + 1 ∧
     correctCount item'
       = (if isCorrect then correctCount item + 1 else correctCount item) ∧
     score item'
       = (if isCorrect then score item + 1 else Z.max 0 (score item - 1))) ∧
  (let item := mapRowToCharacter
       (answered (inserted_row character now a)
          [(false, now); (false, now); (false, now)]) in
   (score item, attempts item, correctCount item) = (0, 3, 0)) ∧
  (let item := mapRowToCharacter
       (answered (inserted_row character now a) [(true, now); (false, now)]) in
   (score item, attempts item, correctCount item) = (0, 2, 1)).
Proof.
  intros Hrow. split; [|split; reflexivity].
  exists (write (updates (counters row) isCorrect now) row). split.
  - unfold recordAnswer. rewrite Hrow. by apply single_update_where_id.
  - destruct isCorrect; cbn -[Z.add Z.sub Z.max]; repeat split.
Qed.

(** C9. A row inserted by [addCharacter] satisfies [correctCount ≤ attempts]
    and [score ≥ 0]; one application of the score-update rule keeps both;
    so they hold after every sequence of answers, and in every row of a
    table filled by [addCharacter] and changed by [recordAnswer] only. *)
Theorem score_invariants (character : NewCharacter) (now : timestamp)
    (a : Assigned) (answers : list (bool * timestamp)) (calls : list call) :
  row_invariant (inserted_row character now a) ∧
  (∀ row ans, row_invariant row → row_invariant (answer_row row ans)) ∧
  (let item := mapRowToCharacter
       (answered (inserted_row character now a) answers) in
   correctCount item ≤ attempts item ∧ 0 ≤ score item) ∧
  Forall row_invariant (history calls).
Proof.
  split; [apply inserted_row_invariant|].
  split; [apply answer_row_invariant|]. split.
  - apply (answered_invariant _ answers), inserted_row_invariant.
  - induction calls as [|c calls IH] using rev_ind; [constructor|].
    rewrite history_snoc. by apply perform_invariant.
Qed.

Lemma recordAnswer_rule_witness :
  single "B" [row_A; row_B; row_C] = Some row_B ∧
  ∃ row',
    single "B" (recordAnswer "B" false 40 true true [row_A; row_B; row_C])
      = Some row' ∧
    attempts (mapRowToCharacter row') = 4 ∧
    correctCount (mapRowToCharacter row') = 0 ∧
    score (mapRowToCharacter row') = 0.
Proof.
  split; [reflexivity|].
  destruct (recordAnswer_rule [row_A; row_B; row_C] "B" row_B false 40
              (mkNewCharacter "shui" "shui3" "water" "Nature")
              (mkAssigned "c-water" "u-1" 0) eq_refl)
    as [(row' & Hsingle & Ha & Hc & Hs) _].
  exists row'. repeat split; assumption.
Defined.

(** * The ordering query *)

Section order.

Implicit Types (table rows : list CharacterRow) (os : list (column * bool)).

#[global] Instance lex_le_refl : Reflexive lex_le.
Proof. intros k. induction k as [|a k IH]; cbn; auto. Qed.

#[global] Instance lex_le_trans : Transitive lex_le.
Proof.
  intros k1. induction k1 as [|a k1 IH]; intros [|b k2] [|c k3]; cbn;
    try done.
  intros [Hab|[-> H12]] [Hbc|[-> H23]]; [left; lia..|].
  right. split; [done|]. by apply (IH k2).
Qed.

#[global] Instance lex_le_total : Total lex_le.
Proof.
  intros k1. induction k1 as [|a k1 IH]; intros [|b k2]; cbn; auto.
  destruct (Z.lt_trichotomy a b) as [Hlt|[->|Hgt]]; auto.
  destruct (IH k2); auto.
Qed.

#[global] Instance lex_le_antisymm : AntiSymm (=) lex_le.
Proof.
  intros k1. induction k1 as [|a k1 IH]; intros [|b k2]; cbn; try done.
  intros [Hab|[-> H12]] [Hba|[Heq H21]]; try lia.
  f_equal. by apply IH.
Qed.

#[global] Instance precedes_trans os : Transitive (precedes os).
Proof. intros r1 r2 r3. unfold precedes. apply lex_le_trans. Qed.

#[global] Instance precedes_total os : Total (precedes os).
Proof. intros r1 r2. unfold precedes. apply lex_le_total. Qed.

(** The store that sorts by merging answers as a store may. *)
Lemma execute_answers table (q : Query) : answers table q (execute table q).
Proof.
  apply answers_data.
  - symmetry. apply merge_sort_Permutation.
  - apply StronglySorted_merge_sort; apply _.
Qed.

Lemma getStudySession_orders (wanted : option string) :
  orders (getStudySession_query wanted) = [(Score, true); (Attempts, false)].
Proof.
  unfold getStudySession_query. by destruct (specific_category wanted).
Qed.

(** The two [order] clauses of [getStudySession] are the spec's order. *)
Lemma precedes_study_order (r1 r2 : CharacterRow) :
  precedes [(Score, true); (Attempts, false)] r1 r2
  ↔ study_order (mapRowToCharacter r1) (mapRowToCharacter r2).
Proof. unfold precedes, study_order. cbn. lia. Qed.

Lemma specific_category_None (wanted : option string) :
  wanted = None ∨ wanted = Some "" ∨ wanted = Some "all" →
  specific_category wanted = None.
Proof. intros [->|[->| ->]]; reflexivity. Qed.

Lemma specific_category_Some (wanted : option string) (c : string) :
  wanted = Some c → c ≠ "" → c ≠ "all" → specific_category wanted = Some c.
Proof.
  intros -> Hempty Hall. unfold specific_category, truthy.
  apply String.eqb_neq in Hempty, Hall. by rewrite Hempty, Hall.
Qed.

Lemma filter_all {A} (P : A → Prop) `{∀ x, Decision (P x)} (l : list A) :
  (∀ x, P x) → filter P l = l.
Proof.
  intros HP. induction l as [|x l IH]; [done|].
  rewrite filter_cons_True by done. by rewrite IH.
Qed.

Lemma filter_mapRowToCharacter (c : string) table :
  filter (λ item, category item = c) (mapRowToCharacter <$> table)
  = mapRowToCharacter <$> filter (λ row, Row.category row = c) table.
Proof.
  induction table as [|row table IH]; [done|].
  rewrite fmap_cons. destruct (decide (Row.category row = c)) as [E|NE].
  - rewrite !filter_cons_True by done. by rewrite fmap_cons, IH.
  - by rewrite !filter_cons_False by done.
Qed.

Lemma StronglySorted_take {A} (R : relation A) (n : nat) (l : list A) :
  StronglySorted R l → StronglySorted R (take n l).
Proof.
  intros Hl. rewrite <- (take_drop n l) in Hl.
  by apply StronglySorted_app_1_l in Hl.
Qed.

Lemma sorted_rows_study_order rows :
  StronglySorted (precedes [(Score, true); (Attempts, false)]) rows →
  StronglySorted study_order (mapRowToCharacter <$> rows).
Proof.
  apply StronglySorted_fmap. intros r1 r2. apply precedes_study_order.
Qed.

(** What a data answer to the query of [getStudySession] is made of. *)
Lemma answers_study_data table (wanted : option string) rows :
  answers table (getStudySession_query wanted) (Data rows) →
  ∃ sorted,
    filter (selected (getStudySession_query wanted)) table ≡ₚ sorted ∧
    StronglySorted (precedes [(Score, true); (Attempts, false)]) sorted ∧
    rows = bounded (getStudySession_query wanted) sorted.
Proof.
  intros Hans. inversion Hans as [sorted Hperm Hsorted Heq|].
  exists sorted. by rewrite <- (getStudySession_orders wanted).
Qed.

End order.

(** C1, as the code has it.  Given data, [getStudySession] returns the items
    sorted by score ascending and, on equal score, attempts descending.
    When the filter is absent, the empty string or ["all"], the result is
    the first 10 items of the whole collection so sorted: 10 items when
    there are more than 10, all of them otherwise.  With any other filter
    it is all and only the items of that category, with no bound. *)
Theorem getStudySession_order (table : list CharacterRow)
    (wanted : option string) (rows : list CharacterRow) :
  answers table (getStudySession_query wanted) (Data rows) →
  let result := on_response (Data rows) in
  StronglySorted study_order result ∧
  (wanted = None ∨ wanted = Some "" ∨ wanted = Some "all" →
   (∃ sorted,
      mapRowToCharacter <$> table ≡ₚ sorted ∧
      StronglySorted study_order sorted ∧
      result = take 10 sorted) ∧
   length result = min 10 (length table)) ∧
  (∀ c, wanted = Some c → c ≠ "" → c ≠ "all" →
   result ≡ₚ filter (λ item, category item = c) (mapRowToCharacter <$> table)).
Proof.
  intros Hans. apply answers_study_data in Hans
    as (sorted & Hperm & Hsorted & ->).
  cbn zeta. cbn [on_response]. split; [|split].
  - apply sorted_rows_study_order. unfold bounded.
    destruct (row_limit _); [by apply StronglySorted_take|done].
  - intros Hwanted. apply specific_category_None in Hwanted.
    unfold getStudySession_query in Hperm |- *. rewrite Hwanted in Hperm |- *.
    unfold bounded. cbn [row_limit limit].
    rewrite filter_all in Hperm by done.
    split.
    + exists (mapRowToCharacter <$> sorted).
      split; [by rewrite Hperm|]. split.
      * by apply sorted_rows_study_order.
      * apply fmap_take.
    + rewrite length_fmap, length_take. by rewrite Hperm.
  - intros c Hc Hempty Hall.
    unfold getStudySession_query in Hperm |- *.
    rewrite (specific_category_Some wanted c) in Hperm |- * by done.
    unfold bounded. cbn [row_limit eq_category_filter order select_all].
    rewrite filter_mapRowToCharacter. by rewrite <- Hperm.
Qed.

Lemma getStudySession_order_witness :
  answers [row_A; row_B; row_C] (getStudySession_query None)
    (Data [row_B; row_C; row_A]) ∧
  StronglySorted study_order (on_response (Data [row_B; row_C; row_A])).
Proof.
  assert (H : answers [row_A; row_B; row_C] (getStudySession_query None)
                (Data [row_B; row_C; row_A]))
    by exact (execute_answers [row_A; row_B; row_C]
                (getStudySession_query None)).
  split; [exact H|].
  apply (getStudySession_order [row_A; row_B; row_C] None
           [row_B; row_C; row_A] H).
Defined.

(** C1 fails for the empty string as a filter: it is a string other than
    ["all"], no item has it as its category, and the query returns the item
    of another category. *)
Lemma getStudySession_empty_string_filter :
  answers [row_A] (getStudySession_query (Some "")) (Data [row_A]) ∧
  on_response (Data [row_A]) = [mapRowToCharacter row_A] ∧
  filter (λ item, category item = "") (mapRowToCharacter <$> [row_A]) = [].
Proof.
  split; [|split; reflexivity].
  exact (execute_answers [row_A] (getStudySession_query (Some ""))).
Qed.

(** The scenario of the spec: whatever the store does with ties, the
    answer over A, B, C without a filter is B, C, A. *)
Lemma getStudySession_scenario (rows : list CharacterRow) :
  answers [row_A; row_B; row_C] (getStudySession_query None) (Data rows) →
  rows = [row_B; row_C; row_A].
Proof.
  intros Hans. apply answers_study_data in Hans
    as (sorted & Hperm & Hsorted & ->).
  change (filter _ _) with [row_A; row_B; row_C] in Hperm.
  assert (sorted = [row_B; row_C; row_A]) as ->; [|reflexivity].
  apply (StronglySorted_unique_strong
           (precedes [(Score, true); (Attempts, false)])); [|done| |].
  - intros x1 x2 H1 H2. rewrite <- Hperm in H1.
    rewrite !elem_of_cons, elem_of_nil in H1, H2. unfold precedes.
    destruct H1 as [->|[->|[->|[]]]], H2 as [->|[->|[->|[]]]]; cbn;
      try done; lia.
  - repeat constructor; unfold precedes; cbn; lia.
  - rewrite <- Hperm. apply Permutation_cons_append.
Qed.

(** [getCharacters] is the query that lists the newest first. *)
Lemma getCharacters_newest_first (table rows : list CharacterRow) :
  answers table getCharacters_query (Data rows) →
  rows ≡ₚ table ∧
  StronglySorted (λ r1 r2, Row.created_at r2 ≤ Row.created_at r1) rows.
Proof.
  intros Hans. inversion Hans as [sorted Hperm Hsorted Heq|]. subst rows.
  clear Hans. change (bounded getCharacters_query sorted) with sorted.
  rewrite filter_all in Hperm by (intros ?; exact I). split; [done|].
  change (orders getCharacters_query) with [(CreatedAt, false)] in Hsorted.
  clear Hperm. induction Hsorted as [|r l Hl IH Hr]; constructor; [done|].
  eapply Forall_impl; [exact Hr|]. intros r'. unfold precedes. cbn. lia.
Qed.

(** C8, as the code has it.  The query draws nothing at random and fixes
    its answer up to ties: two answers over the same collection and filter
    carry the same (score, attempts) pairs, position by position.  It asks
    for no third key, so items equal on both may come in either order. *)
Theorem getStudySession_ties (table : list CharacterRow)
    (wanted : option string) (rows1 rows2 : list CharacterRow) :
  answers table (getStudySession_query wanted) (Data rows1) →
  answers table (getStudySession_query wanted) (Data rows2) →
  order_key <$> on_response (Data rows1)
  = order_key <$> on_response (Data rows2).
Proof.
  intros H1 H2.
  apply answers_study_data in H1 as (sorted1 & Hperm1 & Hsorted1 & ->).
  apply answers_study_data in H2 as (sorted2 & Hperm2 & Hsorted2 & ->).
  set (os := [(Score, true); (Attempts, false)]) in *.
  assert (K : sort_key os <$> sorted1 = sort_key os <$> sorted2).
  { apply (StronglySorted_unique lex_le).
    - by apply (StronglySorted_fmap _ (precedes os)).
    - by apply (StronglySorted_fmap _ (precedes os)).
    - by rewrite <- Hperm1, <- Hperm2. }
  assert (K' : ∀ l : list CharacterRow,
             order_key <$> (mapRowToCharacter <$> l)
             = key_pair <$> (sort_key os <$> l)).
  { intros l. rewrite <- !list_fmap_compose. apply list_fmap_ext.
    intros i r _. cbn. unfold order_key. cbn. f_equal. lia. }
  cbn [on_response]. rewrite !K'. unfold bounded.
  destruct (row_limit _); [|by rewrite K].
  by rewrite !fmap_take, K.
Qed.

Lemma getStudySession_ties_witness :
  answers [older; newer] (getStudySession_query None) (Data [older; newer]) ∧
  answers [older; newer] (getStudySession_query None) (Data [newer; older]) ∧
  order_key <$> on_response (Data [older; newer])
  = order_key <$> on_response (Data [newer; older]).
Proof.
  assert (S1 : StronglySorted (precedes [(Score, true); (Attempts, false)])
                 [older; newer])
    by (repeat constructor; unfold precedes; cbn; lia).
  assert (S2 : StronglySorted (precedes [(Score, true); (Attempts, false)])
                 [newer; older])
    by (repeat constructor; unfold precedes; cbn; lia).
  assert (A1 : answers [older; newer] (getStudySession_query None)
                 (Data [older; newer]))
    by exact (answers_data [older; newer] (getStudySession_query None)
                [older; newer] (Permutation_refl _) S1).
  assert (A2 : answers [older; newer] (getStudySession_query None)
                 (Data [newer; older]))
    by exact (answers_data [older; newer] (getStudySession_query None)
                [newer; older] (perm_swap _ _ _) S2).
  split; [exact A1|]. split; [exact A2|].
  exact (getStudySession_ties [older; newer] None _ _ A1 A2).
Defined.

(** C8 fails: over two items equal on score and attempts, the answer that
    lists the older one first is an answer to the query as much as the one
    that lists the newer one first. *)
Lemma getStudySession_older_first :
  answers [newer; older] (getStudySession_query None) (Data [older; newer]) ∧
  answers [newer; older] (getStudySession_query None) (Data [newer; older]) ∧
  order_key (mapRowToCharacter older) = order_key (mapRowToCharacter newer) ∧
  Row.created_at older < Row.created_at newer.
Proof.
  assert (S1 : StronglySorted (precedes [(Score, true); (Attempts, false)])
                 [older; newer])
    by (repeat constructor; unfold precedes; cbn; lia).
  assert (S2 : StronglySorted (precedes [(Score, true); (Attempts, false)])
                 [newer; older])
    by (repeat constructor; unfold precedes; cbn; lia).
  split; [|split; [|split; reflexivity]].
  - exact (answers_data [newer; older] (getStudySession_query None)
             [older; newer] (perm_swap _ _ _) S1).
  - exact (answers_data [newer; older] (getStudySession_query None)
             [newer; older] (Permutation_refl _) S2).
Qed.

Lemma score_invariants_witness :
  row_invariant
    (answer_row
       (inserted_row (mkNewCharacter "shui" "shui3" "water" "Nature") 0
          (mkAssigned "c-water" "u-1" 0))
       (false, 1)).
Proof.
  apply (score_invariants (mkNewCharacter "shui" "shui3" "water" "Nature") 0
           (mkAssigned "c-water" "u-1" 0) [] []).
  apply inserted_row_invariant.
Defined.

(** * Further properties of the session *)

Section session_walk.

Implicit Types (session : StudySession) (cs : list Character).

(** X1. The cursor has a character under it exactly while the session is not
    complete. *)
Theorem getCurrentCharacter_None session :
  0 ≤ currentIndex session →
  getCurrentCharacter session = None ↔ isSessionComplete session = true.
Proof.
  intros Hidx. unfold getCurrentCharacter, isSessionComplete.
  destruct (Z.leb_spec (array_length (characters session))
              (currentIndex session)) as [Hge|Hlt]; [done|].
  destruct (Z.ltb_spec (currentIndex session) 0) as [Hneg|_]; [lia|].
  split; [|done]. intros Hnone. apply lookup_ge_None in Hnone.
  unfold array_length in Hlt. lia.
Qed.

Lemma getCurrentCharacter_None_witness :
  getCurrentCharacter (answer [water] [true]) = None
  ↔ isSessionComplete (answer [water] [true]) = true.
Proof.
  apply (getCurrentCharacter_None (answer [water] [true])). cbn. lia.
Defined.

Lemma answer_fields cs (answers : list bool) :
  characters (answer cs answers) = cs ∧
  totalCards (answer cs answers) = array_length cs ∧
  currentIndex (answer cs answers) = array_length answers.
Proof.
  induction answers as [|b answers IH] using rev_ind; [done|].
  rewrite answer_snoc. destruct IH as (Hcs & Ht & Hi).
  cbn [characters totalCards currentIndex recordAnswerAndNext].
  repeat split; [done..|]. rewrite Hi. unfold array_length.
  rewrite length_app. cbn. lia.
Qed.

Lemma answer_complete_iff cs (answers : list bool) :
  isSessionComplete (answer cs answers) = true
  ↔ (length cs ≤ length answers)%nat.
Proof.
  destruct (answer_fields cs answers) as (Hcs & Ht & Hi).
  rewrite isSessionComplete_true, Hcs, Hi. unfold array_length. lia.
Qed.

(** X2. Answering card after card: the cursor counts the answers, the
    session is complete from the answer that matches the number of cards
    on, and at that answer nothing remains. *)
Theorem answer_completes cs (answers : list bool) :
  let s := answer cs answers in
  completed (getStats s) = array_length answers ∧
  completed (getStats s) + remaining (getStats s) = total (getStats s) ∧
  (isSessionComplete s = true ↔ (length cs ≤ length answers)%nat) ∧
  (length answers = length cs →
   isSessionComplete s = true ∧ remaining (getStats s) = 0 ∧
   completed (getStats s) = total (getStats s)).
Proof.
  cbn zeta. destruct (answer_fields cs answers) as (Hcs & Ht & Hi).
  cbn [completed remaining total getStats].
  pose proof (answer_complete_iff cs answers) as Hc.
  split; [exact Hi|]. split; [lia|]. split; [exact Hc|].
  intros Hlen. split; [apply Hc; lia|].
  rewrite Ht, Hi. unfold array_length. lia.
Qed.

Lemma handleAnswer_step session b :
  in_range session →
  handleAnswer session b
  = if isSessionComplete session then session
    else recordAnswerAndNext session b.
Proof.
  intros [Ht Hi]. unfold handleAnswer, getCurrentCharacter, isSessionComplete.
  destruct (Z.leb_spec (array_length (characters session))
              (currentIndex session)) as [Hge|Hlt]; [done|].
  destruct (Z.ltb_spec (currentIndex session) 0) as [Hneg|_]; [lia|].
  destruct (characters session !! Z.to_nat (currentIndex session)) eqn:E;
    [done|].
  apply lookup_ge_None in E. unfold array_length in Hlt. lia.
Qed.

Lemma handled_take cs (answers : list bool) :
  handled cs answers = answer cs (take (length cs) answers).
Proof.
  induction answers as [|b answers IH] using rev_ind; [by rewrite take_nil|].
  rewrite handled_snoc, handleAnswer_step by apply handled_in_range.
  rewrite IH.
  pose proof (answer_complete_iff cs (take (length cs) answers)) as Hc.
  destruct (decide (length cs ≤ length answers)%nat) as [Hle|Hgt].
  - rewrite take_app_le by done.
    rewrite (proj2 Hc) by (rewrite length_take; lia). done.
  - rewrite take_app_ge by lia.
    replace (length cs - length answers)%nat
      with (S (length cs - S (length answers))) by lia.
    cbn [take]. rewrite take_nil.
    rewrite take_ge by lia.
    destruct (isSessionComplete (answer cs answers)) eqn:Hcomplete.
    + apply answer_complete_iff in Hcomplete. lia.
    + by rewrite answer_snoc.
Qed.

Lemma handled_current cs (answers : list bool) :
  getCurrentCharacter (handled cs answers) = cs !! length answers.
Proof.
  rewrite handled_take.
  destruct (answer_fields cs (take (length cs) answers)) as (Hcs & Ht & Hi).
  unfold getCurrentCharacter. rewrite Hcs, Hi. unfold array_length.
  rewrite length_take.
  destruct (Z.leb_spec (Z.of_nat (length cs))
              (Z.of_nat (length cs `min` length answers))) as [Hge|Hlt].
  - symmetry. apply lookup_ge_None. lia.
  - destruct (Z.ltb_spec (Z.of_nat (length cs `min` length answers)) 0);
      [lia|].
    rewrite Nat2Z.id. f_equal. lia.
Qed.

(** X3. [handleAnswer] takes the answers while cards are left and ignores
    the rest: the session is the one the first [cs.length] answers give,
    with the tallies of those answers, and the card shown after the answers
    is the next one of the list. *)
Theorem handled_is_answer cs (answers : list bool) :
  let s := handled cs answers in
  s = answer cs (take (length cs) answers) ∧
  currentIndex s = Z.min (array_length cs) (array_length answers) ∧
  correctAnswers s + incorrectAnswers s = currentIndex s ∧
  getCurrentCharacter s = cs !! length answers.
Proof.
  cbn zeta. split; [apply handled_take|].
  destruct (handled_tallies cs answers) as (_ & _ & Hsum).
  split; [|split; [exact Hsum|apply handled_current]].
  rewrite handled_take.
  destruct (answer_fields cs (take (length cs) answers)) as (_ & _ & ->).
  unfold array_length. rewrite length_take. lia.
Qed.

End session_walk.

(** ** Progress and accuracy along a session *)

(** X4. Recording an answer in a session that is not complete never lowers
    the progress shown, which stays between 0 and 100. *)
Theorem getProgress_monotone (session : StudySession) (isCorrect : bool) :
  in_range session → isSessionComplete session = false →
  ∃ k k',
    getProgress session = int k ∧
    getProgress (recordAnswerAndNext session isCorrect) = int k' ∧
    0 ≤ k ∧ k ≤ k' ∧ k' ≤ 100.
Proof.
  intros [Ht Hi] Hc.
  assert (currentIndex session < totalCards session) as Hlt.
  { unfold isSessionComplete in Hc. apply Z.leb_gt in Hc. lia. }
  exists (percent_of (currentIndex session) (totalCards session)).
  exists (percent_of (currentIndex session + 1) (totalCards session)).
  split; [apply getProgress_value; lia|].
  split; [apply (getProgress_value (recordAnswerAndNext session isCorrect));
          cbn [currentIndex totalCards recordAnswerAndNext]; lia|].
  pose proof (percent_of_bounds (currentIndex session) (totalCards session)
                ltac:(lia) ltac:(lia)).
  pose proof (percent_of_bounds (currentIndex session + 1) (totalCards session)
                ltac:(lia) ltac:(lia)).
  pose proof (percent_of_mono (currentIndex session) (currentIndex session + 1)
                (totalCards session) ltac:(lia) ltac:(lia) ltac:(lia)).
  lia.
Qed.

Lemma getProgress_monotone_witness :
  ∃ k k',
    getProgress (createSession [water; water; water]) = int k ∧
    getProgress (recordAnswerAndNext (createSession [water; water; water]) true)
      = int k' ∧
    0 ≤ k ∧ k ≤ k' ∧ k' ≤ 100.
Proof.
  apply (getProgress_monotone (createSession [water; water; water]) true).
  - apply createSession_in_range.
  - reflexivity.
Defined.

(** X5. A session with cards in which every recorded answer was correct has
    accuracy 100; one without a correct answer has accuracy 0. *)
Theorem getStats_accuracy_extremes (session : StudySession) :
  0 ≤ correctAnswers session → 0 ≤ incorrectAnswers session →
  (0 < totalCards session → 0 < correctAnswers session →
   incorrectAnswers session = 0 → accuracy (getStats session) = int 100) ∧
  (correctAnswers session = 0 → accuracy (getStats session) = int 0).
Proof.
  intros Hc Hi. rewrite accuracy_cases by done. split.
  - intros Ht Hpos Hzero. rewrite Hzero, Z.add_0_r.
    destruct (Z.ltb_spec 0 (totalCards session)); [|lia].
    destruct (Z.ltb_spec 0 (correctAnswers session)); [|lia].
    cbn [andb]. by rewrite percent_of_full.
  - intros Hzero. rewrite Hzero.
    destruct ((0 <? totalCards session) && (0 <? 0 + incorrectAnswers session))
      eqn:E; [|done].
    apply andb_prop in E as [_ E]. apply Z.ltb_lt in E.
    by rewrite percent_of_zero by lia.
Qed.

Lemma getStats_accuracy_extremes_witness :
  accuracy (getStats (answer [water; water] [true; true])) = int 100 ∧
  accuracy (getStats (answer [water; water] [false; false])) = int 0.
Proof.
  split.
  - apply (getStats_accuracy_extremes (answer [water; water] [true; true]));
      vm_compute; congruence.
  - apply (getStats_accuracy_extremes (answer [water; water] [false; false]));
      vm_compute; congruence.
Defined.


(** * The study page *)

Section page.

Implicit Types (cs : list Character) (table : list CharacterRow).

Lemma zip_snoc {A B} (l : list A) (k : list B) (y : B) :
  zip l (k ++ [y])
  = zip l k ++ match l !! length k with Some x => [(x, y)] | None => [] end.
Proof.
  rewrite zip_with_app_r, zip_with_take_l. f_equal.
  pose proof (lookup_drop l (length k) 0) as Hd.
  rewrite Nat.add_0_r in Hd. rewrite <- Hd.
  destruct (drop (length k) l) as [|x rest]; [done|].
  cbn. by rewrite zip_with_nil_r.
Qed.

(** X6. A session on the page: [startStudySession] over the cards, then one
    [handleAnswer] per answer.  The session is the one [handleAnswer] of
    the session module gives; the store has received one [recordAnswer]
    per card shown, in the order of the cards, each with the answer given
    to that card, and none for an answer given after the last card; and the
    results show from the answer to the last card on. *)
Theorem page_session table cs (answers : list (bool * IndexPage.AnswerIO)) :
  cs ≠ [] →
  let started :=
    IndexPage.startStudySession cs (IndexPage.mkPage table None false) in
  let p := foldl IndexPage.handleAnswer started answers in
  IndexPage.session p = Some (handled cs answers.*1) ∧
  IndexPage.store p = foldl IndexPage.record_card table (zip cs answers) ∧
  IndexPage.showResults p = bool_decide (length cs ≤ length answers)%nat.
Proof.
  intros Hcs. cbn zeta.
  assert (Hstart : IndexPage.startStudySession cs
                     (IndexPage.mkPage table None false)
                   = IndexPage.mkPage table (Some (createSession cs)) false).
  { unfold IndexPage.startStudySession, array_length.
    destruct cs; [done|]. reflexivity. }
  rewrite Hstart. clear Hstart.
  induction answers as [|a answers IH] using rev_ind.
  - cbn. split; [done|]. split; [by rewrite zip_with_nil_r|].
    symmetry. apply bool_decide_eq_false. destruct cs; [done|]. cbn. lia.
  - rewrite foldl_app. cbn [foldl].
    destruct IH as (Hs & Hstore & Hshow).
    set (q := foldl IndexPage.handleAnswer _ answers) in *.
    pose proof (handled_current cs answers.*1) as Hcur.
    rewrite length_fmap in Hcur.
    assert (Hstep :
      IndexPage.handleAnswer q a
      = match cs !! length answers with
        | Some c =>
            let updated := recordAnswerAndNext (handled cs answers.*1) a.1 in
            IndexPage.mkPage
              (IndexPage.record_card (IndexPage.store q) (c, a))
              (Some updated)
              (if isSessionComplete updated then true
               else IndexPage.showResults q)
        | None => q
        end).
    { unfold IndexPage.handleAnswer. rewrite Hs, Hcur.
      by destruct (cs !! length answers). }
    rewrite Hstep. clear Hstep.
    rewrite fmap_app. cbn [fmap list_fmap].
    rewrite handled_snoc, zip_snoc, foldl_app, length_app.
    cbn [length]. unfold handleAnswer. rewrite Hcur.
    pose proof (handled_take cs answers.*1) as Eprev.
    destruct (cs !! length answers) as [c|] eqn:Hc.
    + cbn zeta.
      cbn [IndexPage.session IndexPage.store IndexPage.showResults foldl].
      split; [done|]. split; [by rewrite Hstore|].
      apply lookup_lt_Some in Hc.
      assert (Ecur : recordAnswerAndNext (handled cs answers.*1) a.1
                     = answer cs (answers.*1 ++ [a.1])).
      { rewrite Eprev, take_ge by (rewrite length_fmap; lia).
        by rewrite answer_snoc. }
      rewrite Ecur.
      pose proof (answer_complete_iff cs (answers.*1 ++ [a.1])) as Hafter.
      rewrite length_app, length_fmap in Hafter. cbn [length] in Hafter.
      destruct (isSessionComplete (answer cs (answers.*1 ++ [a.1])))
        eqn:Hdone.
      * symmetry. apply bool_decide_eq_true. by apply Hafter.
      * rewrite Hshow.
        transitivity false; [apply bool_decide_eq_false; lia|].
        symmetry. apply bool_decide_eq_false. intros Hle.
        apply Hafter in Hle. congruence.
    + cbn [foldl]. split; [done|]. split; [done|].
      apply lookup_ge_None in Hc. rewrite Hshow.
      transitivity true; [apply bool_decide_eq_true; lia|].
      symmetry. apply bool_decide_eq_true. lia.
Qed.

End page.

(** * Further properties of the store *)

Section crud.

Implicit Types (table : list CharacterRow) (row : CharacterRow) (key : string).

Lemma filter_none {A} (P : A → Prop) `{∀ x, Decision (P x)} (l : list A) :
  (∀ x, x ∈ l → ¬ P x) → filter P l = [].
Proof.
  intros Hl. induction l as [|x l IH]; [done|].
  rewrite filter_cons_False by (apply Hl; left).
  apply IH. intros y Hy. apply Hl. by right.
Qed.

Lemma filter_every {A} (P : A → Prop) `{∀ x, Decision (P x)} (l : list A) :
  (∀ x, x ∈ l → P x) → filter P l = l.
Proof.
  intros Hl. induction l as [|x l IH]; [done|].
  rewrite filter_cons_True by (apply Hl; left).
  f_equal. apply IH. intros y Hy. apply Hl. by right.
Qed.

Lemma single_Some_unique key table row :
  single key table = Some row →
  Row.id row = key ∧ ∀ r, r ∈ table → Row.id r = key → r = row.
Proof.
  unfold single. intros H.
  destruct (filter _ table) as [|r0 [|r1 rest]] eqn:E; simplify_eq.
  assert (Hin : ∀ r, r ∈ table → Row.id r = key → r ∈ [row]).
  { intros r Hr Hid. rewrite <- E. by apply list_elem_of_filter. }
  split.
  - assert (row ∈ filter (λ r, Row.id r = key) table) as Hrow
      by (rewrite E; left).
    by apply list_elem_of_filter in Hrow as [? _].
  - intros r Hr Hid. by apply list_elem_of_singleton, Hin.
Qed.

Lemma single_filter_other key other table :
  other ≠ key →
  single other (filter (λ row, Row.id row ≠ key) table) = single other table.
Proof.
  intros Hne. unfold single. rewrite list_filter_filter.
  rewrite (list_filter_iff _ (λ row, Row.id row = other)); [done|].
  intros r. split; [by intros [? _]|]. intros <-. split; [done|].
  congruence.
Qed.

(** X8. A character added under an id the table does not have yet is found
    under that id, with its counters at zero; the other ids are found as
    before; a failed insert changes nothing and returns [null]. *)
Theorem addCharacter_lookup (character : NewCharacter) (now : timestamp)
    (a : Assigned) table :
  (∀ row, row ∈ table → Row.id row ≠ assigned_id a) →
  let result := addCharacter character now a true table in
  single (assigned_id a) result.1 = Some (inserted_row character now a) ∧
  result.2
    = Some {| id := assigned_id a;
              chinese := new_chinese character;
              pinyin := new_pinyin character;
              english := new_english character;
              category := new_category character;
              score := 0; attempts := 0; correctCount := 0;
              lastReviewed := now |} ∧
  (∀ key, key ≠ assigned_id a → single key result.1 = single key table) ∧
  addCharacter character now a false table = (table, None).
Proof.
  intros Hfresh. cbn zeta. unfold addCharacter. cbn [fst snd].
  split; [|split; [done|split; [|done]]].
  - unfold single. rewrite filter_app, (filter_none _ table) by done.
    by rewrite filter_cons_True.
  - intros key Hkey. unfold single. rewrite filter_app.
    rewrite (filter_cons_False _ (inserted_row character now a))
      by (cbn; congruence).
    by rewrite filter_nil, app_nil_r.
Qed.

(** X9. After [deleteCharacter] no row has the id, the rows of other ids
    are all there and are found as before; deleting an id the table does
    not have, like a failed request, changes nothing. *)
Theorem deleteCharacter_removes key table :
  single key (deleteCharacter key true table) = None ∧
  (∀ row, row ∈ deleteCharacter key true table
          ↔ row ∈ table ∧ Row.id row ≠ key) ∧
  (∀ other, other ≠ key →
     single other (deleteCharacter key true table) = single other table) ∧
  ((∀ row, row ∈ table → Row.id row ≠ key) →
   deleteCharacter key true table = table) ∧
  deleteCharacter key false table = table.
Proof.
  unfold deleteCharacter. split; [|split; [|split; [|split; [|done]]]].
  - unfold single. rewrite filter_none; [done|].
    intros r Hr. by apply list_elem_of_filter in Hr as [? _].
  - intros row. rewrite list_elem_of_filter. tauto.
  - intros other Hne. by apply single_filter_other.
  - intros Habsent. by apply filter_every.
Qed.

(** X10. Adding a character under a new id and deleting that id gives the table
    back. *)
Theorem add_then_delete (character : NewCharacter) (now : timestamp)
    (a : Assigned) table :
  (∀ row, row ∈ table → Row.id row ≠ assigned_id a) →
  deleteCharacter (assigned_id a) true
    (addCharacter character now a true table).1 = table.
Proof.
  intros Hfresh. unfold deleteCharacter, addCharacter. cbn [fst].
  rewrite filter_app, (filter_every _ table) by done.
  rewrite filter_cons_False by (cbn; tauto). by rewrite filter_nil, app_nil_r.
Qed.

(** X11. [updateCharacter] keeps the number and order of the rows and their
    [id], [user_id] and [created_at], and leaves the rows of other ids as
    they are. *)
Theorem updateCharacter_frame key (updates : PartialCharacter) (ok : bool)
    table :
  let result := updateCharacter key updates ok table in
  Row.id <$> result = Row.id <$> table ∧
  Row.user_id <$> result = Row.user_id <$> table ∧
  Row.created_at <$> result = Row.created_at <$> table ∧
  filter (λ row, Row.id row ≠ key) result
  = filter (λ row, Row.id row ≠ key) table.
Proof.
  cbn zeta. unfold updateCharacter. destruct ok; [|done].
  repeat split.
  1-3: rewrite <- list_fmap_compose; apply list_fmap_ext;
       intros i r _; cbn; by case_decide.
  induction table as [|r table IH]; [done|].
  rewrite fmap_cons. destruct (decide (Row.id r = key)) as [E|NE].
  - rewrite !filter_cons_False by (cbn; tauto). exact IH.
  - rewrite !filter_cons_True by done. by rewrite IH.
Qed.

(** X12. Saving the form of an existing character writes its four text fields
    and nothing else: score, attempts, correct count and review time of
    every row stay, and with them the invariant of the counters. *)
Theorem edit_keeps_counters key (data : NewCharacter) (ok : bool) table :
  let result := updateCharacter key (characterData data) ok table in
  counters <$> result = counters <$> table ∧
  Row.last_reviewed <$> result = Row.last_reviewed <$> table ∧
  (Forall row_invariant table → Forall row_invariant result) ∧
  (ok = true →
   ∀ row, row ∈ result → Row.id row = key →
     Row.chinese row = new_chinese data ∧ Row.pinyin row = new_pinyin data ∧
     Row.english row = new_english data ∧
     Row.category row = new_category data).
Proof.
  cbn zeta. unfold updateCharacter. destruct ok; [|done].
  split; [|split; [|split]].
  1-2: rewrite <- list_fmap_compose; apply list_fmap_ext;
       intros i r _; cbn; by case_decide.
  - intros Hall. apply Forall_fmap. eapply Forall_impl; [exact Hall|].
    intros r Hr. cbn. by case_decide.
  - intros _ row Hrow Hid. apply list_elem_of_fmap in Hrow as (r & -> & Hr).
    case_decide as Hk; [done|]. done.
Qed.

(** X13. Writing back the character read from the one row of its id changes
    nothing: [mapRowToCharacter] and the column names of [updateCharacter]
    agree. *)
Theorem updateCharacter_whole key table row :
  single key table = Some row →
  updateCharacter key (whole (mapRowToCharacter row)) true table = table.
Proof.
  intros Hrow. apply single_Some_unique in Hrow as [Hid Huniq].
  unfold updateCharacter.
  transitivity ((λ r : CharacterRow, r) <$> table); [|apply list_fmap_id].
  apply list_fmap_ext. intros i r Hr. case_decide as Hk; [|done].
  apply list_elem_of_lookup_2 in Hr. rewrite (Huniq r Hr Hk).
  by destruct row.
Qed.

(** X14. [recordAnswer] changes nothing when a request fails or the id is not
    that of exactly one row; in every case it keeps the rows, their order
    and ids, and leaves the rows of other ids as they are. *)
Theorem recordAnswer_frame key (isCorrect : bool) (now : timestamp)
    (fetch_ok update_ok : bool) table :
  let result := recordAnswer key isCorrect now fetch_ok update_ok table in
  (fetch_ok = false ∨ update_ok = false ∨ single key table = None →
   result = table) ∧
  Row.id <$> result = Row.id <$> table ∧
  filter (λ row, Row.id row ≠ key) result
  = filter (λ row, Row.id row ≠ key) table.
Proof.
  cbn zeta. unfold recordAnswer. split.
  - intros [-> |[-> | ->]]; [done| |by destruct fetch_ok].
    destruct fetch_ok; [|done]. by destruct (single key table).
  - destruct fetch_ok; [|done].
    destruct (single key table) as [row|]; [|done].
    destruct update_ok; [|done]. unfold update_where_id. split.
    + rewrite <- list_fmap_compose. apply list_fmap_ext.
      intros i r _. cbn. by case_decide.
    + induction table as [|r table IH]; [done|].
      rewrite fmap_cons. destruct (decide (Row.id r = key)) as [E|NE].
      * rewrite !filter_cons_False by (cbn; tauto). exact IH.
      * rewrite !filter_cons_True by done. by rewrite IH.
Qed.

End crud.

Section counters_bounds.

Implicit Types (table : list CharacterRow) (row : CharacterRow).

Lemma write_updates_bounds row target (isCorrect : bool) (now : timestamp) :
  row_bounds row →
  row_bounds (write (updates (counters row) isCorrect now) target).
Proof.
  unfold row_bounds. intros [Hs Hc].
  destruct isCorrect; cbn -[Z.add Z.sub Math_max]; unfold Math_max; lia.
Qed.

Lemma recordAnswer_bounds (key : string) (isCorrect : bool) (now : timestamp)
    (fetch_ok update_ok : bool) table :
  Forall row_bounds table →
  Forall row_bounds (recordAnswer key isCorrect now fetch_ok update_ok table).
Proof.
  intros Hall. unfold recordAnswer.
  destruct fetch_ok; [|done].
  destruct (single key table) as [row|] eqn:Hrow; [|done].
  destruct update_ok; [|done].
  apply single_elem_of in Hrow.
  assert (row_bounds row) as Hb
    by (rewrite Forall_forall in Hall; by apply Hall).
  unfold update_where_id. apply Forall_fmap.
  eapply Forall_impl; [exact Hall|]. intros target Htarget. cbn.
  case_decide; [|done]. by apply write_updates_bounds.
Qed.

Lemma serve_bounds table (r : request) :
  Forall row_bounds table → Forall row_bounds (serve table r).
Proof.
  intros Hall. destruct r as [[character now a ok|key b now f u]|key ok|key data ok];
    cbn.
  - unfold addCharacter. destruct ok; [|done]. cbn.
    apply Forall_app. split; [done|]. apply Forall_singleton.
    unfold row_bounds. cbn. lia.
  - by apply recordAnswer_bounds.
  - unfold deleteCharacter. destruct ok; [|done].
    rewrite Forall_forall in Hall |- *. intros row Hrow.
    apply list_elem_of_filter in Hrow as [_ Hrow]. by apply Hall.
  - unfold updateCharacter. destruct ok; [|done].
    apply Forall_fmap. eapply Forall_impl; [exact Hall|].
    intros row Hrow. cbn. by case_decide.
Qed.

(** X15. In every table the app fills and changes (characters added, answers
    recorded, characters deleted, forms saved, whatever requests fail),
    every row has [0 ≤ score ≤ correct_count ≤ attempts]. *)
Theorem served_bounds (requests : list request) :
  Forall (λ row, 0 ≤ Row.score row ≤ Row.correct_count row
                 ∧ Row.correct_count row ≤ Row.attempts row)
    (served requests).
Proof.
  change (Forall row_bounds (served requests)).
  induction requests as [|r requests IH] using rev_ind; [constructor|].
  unfold served. rewrite foldl_app. by apply serve_bounds.
Qed.

End counters_bounds.

Section study_writes.

Implicit Types (table : list CharacterRow)
  (cards : list (Character * (bool * IndexPage.AnswerIO))).

Lemma filter_id_NoDup (key : string) table :
  NoDup (Row.id <$> table) →
  (length (filter (λ row, Row.id row = key) table) ≤ 1)%nat.
Proof.
  induction table as [|r table IH]; [cbn; lia|].
  rewrite fmap_cons, NoDup_cons. intros [Hr Hnd].
  destruct (decide (Row.id r = key)) as [E|NE].
  - rewrite filter_cons_True by done.
    rewrite filter_none; [cbn; lia|].
    intros r' Hr' Hid. apply Hr. rewrite E, <- Hid.
    by apply list_elem_of_fmap_2.
  - rewrite filter_cons_False by done. by apply IH.
Qed.

(** One [recordAnswer] that goes through, on a table with one row per id. *)
Lemma record_card_map table (ca : Character * (bool * IndexPage.AnswerIO)) :
  NoDup (Row.id <$> table) →
  IndexPage.fetch_ok ca.2.2 = true → IndexPage.update_ok ca.2.2 = true →
  IndexPage.record_card table ca = IndexPage.studied [ca] <$> table.
Proof.
  intros Hnd Hf Hu. unfold IndexPage.record_card, recordAnswer.
  rewrite Hf, Hu. cbn [IndexPage.studied].
  pose proof (filter_id_NoDup (id ca.1) table Hnd) as Hlen.
  destruct (single (id ca.1) table) as [row|] eqn:Hrow.
  - apply single_Some_unique in Hrow as [Hid Huniq].
    unfold update_where_id. apply list_fmap_ext. intros i r Hr.
    case_decide as Hk; [|done].
    apply list_elem_of_lookup_2 in Hr. by rewrite (Huniq r Hr Hk).
  - transitivity ((λ r : CharacterRow, r) <$> table);
      [symmetry; apply list_fmap_id|].
    apply list_fmap_ext. intros i r Hr. case_decide as Hk; [|done].
    exfalso. apply list_elem_of_lookup_2 in Hr.
    unfold single in Hrow.
    assert (r ∈ filter (λ row, Row.id row = id ca.1) table) as Hin
      by (by apply list_elem_of_filter).
    destruct (filter _ table) as [|r0 [|r1 rest]]; cbn in Hlen;
      [by apply elem_of_nil in Hin|done|lia].
Qed.

Lemma studied_other cards (row : CharacterRow) :
  (∀ ca, ca ∈ cards → id ca.1 ≠ Row.id row) →
  IndexPage.studied cards row = row.
Proof.
  induction cards as [|ca cards IH]; [done|]. intros Hne. cbn.
  rewrite decide_False by (intros E; apply (Hne ca); [left|done]).
  apply IH. intros ca' Hca'. apply Hne. by right.
Qed.

Lemma studied_id cards (row : CharacterRow) :
  Row.id (IndexPage.studied cards row) = Row.id row.
Proof.
  induction cards as [|ca cards IH]; [done|]. cbn. by case_decide.
Qed.

(** X7. A session writes to each card once.  On a table with one row per id,
    for cards of distinct ids and requests that all go through, the
    [recordAnswer] calls of the session leave every row that is a card with
    the update of its own answer, computed from the row as it was before
    the session, and every other row as it was. *)
Theorem session_writes_once table cards :
  NoDup (Row.id <$> table) →
  NoDup ((λ ca, id ca.1) <$> cards) →
  Forall (λ ca, IndexPage.fetch_ok ca.2.2 = true
                ∧ IndexPage.update_ok ca.2.2 = true) cards →
  foldl IndexPage.record_card table cards = IndexPage.studied cards <$> table.
Proof.
  intros Hnd Hcards Hok. revert table Hnd.
  induction cards as [|ca cards IH]; intros table Hnd.
  - cbn. symmetry. apply list_fmap_id.
  - apply NoDup_cons in Hcards as [Hca Hcards].
    apply Forall_cons in Hok as [[Hf Hu] Hok].
    cbn [foldl]. rewrite record_card_map by done.
    rewrite IH; [|done|done|].
    + rewrite <- list_fmap_compose. apply list_fmap_ext.
      intros i row _. cbn.
      case_decide as Hk; [|done].
      apply studied_other. intros ca' Hca' Hid. apply Hca. cbn in Hid.
      rewrite <- Hk, <- Hid. by apply (list_elem_of_fmap_2 (λ ca, id ca.1)).
    + rewrite <- list_fmap_compose.
      erewrite list_fmap_ext; [exact Hnd|].
      intros i row _. cbn. by case_decide.
Qed.

End study_writes.

Section query_more.


End query_more.

(** * Categories and their counts *)

Section set_of_values.

Lemma elem_of_set_values (seen values : list string) (x : string) :
  x ∈ set_values seen values ↔ x ∈ values ∧ x ∉ seen.
Proof.
  revert seen. induction values as [|y values IH]; intros seen; cbn.
  - rewrite elem_of_nil. tauto.
  - case_decide as Hy.
    + rewrite IH, elem_of_cons. split; [tauto|].
      intros [[->|Hx] Hseen]; [done|tauto].
    + rewrite !elem_of_cons, IH, not_elem_of_cons.
      destruct (decide (x = y)) as [->|Hne]; tauto.
Qed.

Lemma NoDup_set_values (seen values : list string) :
  NoDup (set_values seen values).
Proof.
  revert seen. induction values as [|y values IH]; intros seen; cbn.
  - constructor.
  - case_decide as Hy; [apply IH|].
    apply NoDup_cons. split; [|apply IH].
    rewrite elem_of_set_values, not_elem_of_cons. tauto.
Qed.

Lemma elem_of_spread_set (values : list string) (x : string) :
  x ∈ spread_set values ↔ x ∈ values.
Proof.
  unfold spread_set. rewrite elem_of_set_values, elem_of_nil. tauto.
Qed.

End set_of_values.

Section categories_facts.

Context (code_unit_le : relation string) `{!RelDecision code_unit_le}
  `{!PartialOrder code_unit_le} `{!Total code_unit_le}.

Implicit Types (table rows : list CharacterRow) (characters : list Character).

Lemma array_sort_Permutation (values : list string) :
  array_sort code_unit_le values ≡ₚ values.
Proof. apply merge_sort_Permutation. Qed.

Lemma array_sort_sorted (values : list string) :
  StronglySorted code_unit_le (array_sort code_unit_le values).
Proof. apply StronglySorted_merge_sort; apply _. Qed.

(** The sorted set of values depends on the values only as a set. *)
Lemma sorted_set_unique (l1 l2 : list string) :
  (∀ x, x ∈ l1 ↔ x ∈ l2) →
  array_sort code_unit_le (spread_set l1)
  = array_sort code_unit_le (spread_set l2).
Proof.
  intros Hsame.
  apply (StronglySorted_unique code_unit_le); [apply array_sort_sorted..|].
  rewrite !array_sort_Permutation.
  apply NoDup_Permutation; [apply NoDup_set_values..|].
  intros x. by rewrite !elem_of_spread_set.
Qed.

Lemma categories_elem_of characters (c : string) :
  c ∈ IndexPage.categories code_unit_le characters
  ↔ ∃ char, char ∈ characters ∧ category char = c.
Proof.
  unfold IndexPage.categories.
  rewrite array_sort_Permutation, elem_of_spread_set, list_elem_of_fmap.
  split; intros (char & H1 & H2); eauto.
Qed.

Lemma categories_NoDup characters :
  NoDup (IndexPage.categories code_unit_le characters).
Proof.
  unfold IndexPage.categories. rewrite array_sort_Permutation.
  apply NoDup_set_values.
Qed.

(** X18. [getCategories] lists each category in use once, in sorted order,
    whatever the order in which the store returns the rows; it is the list
    the pages derive from the characters they loaded. *)
Theorem getCategories_listing table rows :
  answers table getCategories_query (Data rows) →
  let cats := getCategories code_unit_le (Data rows) in
  NoDup cats ∧
  StronglySorted code_unit_le cats ∧
  (∀ c, c ∈ cats ↔ ∃ row, row ∈ table ∧ Row.category row = c) ∧
  (∀ characters, characters ≡ₚ mapRowToCharacter <$> table →
     cats = IndexPage.categories code_unit_le characters).
Proof.
  intros Hans. inversion Hans as [sorted Hperm _ Heq|]. subst rows.
  clear Hans. change (bounded getCategories_query sorted) with sorted.
  rewrite filter_all in Hperm by (intros ?; exact I).
  cbn zeta. cbn [getCategories]. split; [|split; [|split]].
  - rewrite array_sort_Permutation. apply NoDup_set_values.
  - apply array_sort_sorted.
  - intros c.
    rewrite array_sort_Permutation, elem_of_spread_set, list_elem_of_fmap.
    setoid_rewrite <- Hperm. split; intros (row & H1 & H2); eauto.
  - intros characters Hchars. unfold IndexPage.categories.
    apply sorted_set_unique. intros c.
    rewrite Hchars, <- list_fmap_compose, !list_elem_of_fmap.
    setoid_rewrite <- Hperm. split; intros (row & H1 & H2); eauto.
Qed.

Lemma assign_fold (f : string → Z) (cs : list string) :
  NoDup cs →
  let m := foldl (λ acc c, IndexPage.assign acc c (f c)) ∅ cs in
  (∀ c, m !! c = if decide (c ∈ cs ∧ c ≠ "__proto__") then Some (f c)
                 else None) ∧
  CategoryFilter.totalCount m
  = foldr Z.add 0 (f <$> filter (λ c, c ≠ "__proto__") cs).
Proof.
  cbn zeta. induction cs as [|c cs IH] using rev_ind; intros Hnd.
  - cbn. split; [|done]. intros c. rewrite lookup_empty.
    rewrite decide_False; [done|]. rewrite elem_of_nil. tauto.
  - apply NoDup_app in Hnd as (Hcs & Hfresh & _).
    destruct (IH Hcs) as [Hlookup Htotal]. clear IH.
    assert (Hc : c ∉ cs).
    { intros Hin. apply (Hfresh c Hin). left. }
    rewrite foldl_app. cbn [foldl].
    set (m := foldl (λ acc c0, IndexPage.assign acc c0 (f c0)) ∅ cs) in *.
    unfold IndexPage.assign. rewrite filter_app, fmap_app, foldr_app.
    destruct (decide (c = "__proto__")) as [->|Hproto].
    + rewrite filter_cons_False, filter_nil by tauto. cbn [fmap list_fmap foldr].
      split; [|done]. intros c'. rewrite Hlookup.
      destruct (decide (c' ∈ cs ∧ c' ≠ "__proto__")) as [[??]|Hno].
      * rewrite decide_True; [done|]. rewrite elem_of_app. tauto.
      * rewrite decide_False; [done|].
        rewrite elem_of_app, list_elem_of_singleton.
        intros [[Hin| ->] Hp]; tauto.
    + rewrite filter_cons_True, filter_nil by done.
      cbn [fmap list_fmap foldr]. split.
      * intros c'. destruct (decide (c' = c)) as [->|Hne].
        -- rewrite lookup_insert_eq. rewrite decide_True; [done|].
           rewrite elem_of_app, list_elem_of_singleton. tauto.
        -- rewrite lookup_insert_ne by done. rewrite Hlookup.
           destruct (decide (c' ∈ cs ∧ c' ≠ "__proto__")) as [[??]|Hno].
           ++ rewrite decide_True; [done|]. rewrite elem_of_app. tauto.
           ++ rewrite decide_False; [done|].
              rewrite elem_of_app, list_elem_of_singleton. tauto.
      * unfold CategoryFilter.totalCount in *.
        rewrite map_fold_insert_L.
        -- rewrite Htotal, Z.add_0_r.
           generalize (f <$> filter (λ c0, c0 ≠ "__proto__") cs).
           intros l. induction l as [|z l IHl]; cbn; lia.
        -- intros. lia.
        -- rewrite Hlookup. rewrite decide_False; [done|]. tauto.
Qed.

Lemma count_one (ks : list string) (k : string) :
  NoDup ks → k ∈ ks →
  foldr Z.add 0 ((λ k', if decide (k = k') then 1 else 0) <$> ks) = 1.
Proof.
  induction ks as [|k0 ks IH]; [by intros _ ?%elem_of_nil|].
  rewrite NoDup_cons, elem_of_cons. intros [Hk0 Hnd] Hin. cbn.
  destruct (decide (k = k0)) as [->|Hne].
  - assert (foldr Z.add 0 ((λ k', if decide (k0 = k') then 1 else 0) <$> ks)
            = 0) as ->; [|done].
    clear IH Hin Hnd. induction ks as [|k1 ks IH]; [done|].
    apply not_elem_of_cons in Hk0 as [Hne Hk0]. cbn.
    rewrite decide_False by done. by rewrite IH.
  - rewrite IH; [done|done|]. by destruct Hin.
Qed.

Lemma count_partition characters (ks : list string) :
  NoDup ks → (∀ char, char ∈ characters → category char ∈ ks) →
  foldr Z.add 0 (IndexPage.count_in characters <$> ks)
  = array_length characters.
Proof.
  intros Hnd. induction characters as [|char characters IH]; intros Hall.
  - unfold IndexPage.count_in. cbn. clear Hnd Hall.
    induction ks as [|k ks IH]; [done|]. cbn. by rewrite IH.
  - assert (E : ∀ l : list string,
              foldr Z.add 0 (IndexPage.count_in (char :: characters) <$> l)
              = foldr Z.add 0
                  ((λ k', if decide (category char = k') then 1 else 0) <$> l)
                + foldr Z.add 0 (IndexPage.count_in characters <$> l)).
    { intros l. induction l as [|k l IHl]; [done|]. cbn. rewrite IHl.
      unfold IndexPage.count_in, array_length. rewrite filter_cons.
      destruct (decide (category char = k)); cbn [length]; lia. }
    rewrite E, IH, count_one.
    + unfold array_length. cbn [length]. lia.
    + done.
    + apply Hall. left.
    + intros c Hc. apply Hall. by right.
Qed.

(** X19. The total shown for "all" is the number of characters loaded, not
    counting those whose category is ["__proto__"], for which the counts
    object gets no property; and each listed category other than that one
    shows the number of its characters, which is at least 1. *)
Theorem totalCount_characters characters :
  let counts := IndexPage.characterCounts code_unit_le characters in
  CategoryFilter.totalCount counts
  = array_length (filter (λ char, category char ≠ "__proto__") characters) ∧
  (∀ c, c ∈ IndexPage.categories code_unit_le characters → c ≠ "__proto__" →
        CategoryFilter.shown_count counts c = IndexPage.count_in characters c
        ∧ 1 ≤ CategoryFilter.shown_count counts c).
Proof.
  cbn zeta. unfold IndexPage.characterCounts.
  destruct (assign_fold (IndexPage.count_in characters)
              (IndexPage.categories code_unit_le characters)
              (categories_NoDup characters)) as [Hlookup Htotal].
  split.
  - rewrite Htotal.
    set (kept := filter (λ char, category char ≠ "__proto__") characters).
    rewrite <- (count_partition kept
                  (filter (λ c, c ≠ "__proto__")
                     (IndexPage.categories code_unit_le characters))).
    + f_equal. apply list_fmap_ext. intros i c Hc.
      apply list_elem_of_lookup_2, list_elem_of_filter in Hc as [Hc _].
      unfold IndexPage.count_in, kept. f_equal.
      rewrite list_filter_filter. apply list_filter_iff. intros char.
      split; [|tauto]. intros <-. tauto.
    + apply NoDup_filter, categories_NoDup.
    + intros char Hchar. apply list_elem_of_filter in Hchar as [Hp Hchar].
      apply list_elem_of_filter. split; [done|].
      apply categories_elem_of. eauto.
  - intros c Hc Hproto. unfold CategoryFilter.shown_count.
    rewrite Hlookup, decide_True by done. cbn. split; [done|].
    apply categories_elem_of in Hc as (char & Hchar & Hcat).
    unfold IndexPage.count_in, array_length.
    assert (char ∈ filter (λ char0, category char0 = c) characters) as Hin
      by (by apply list_elem_of_filter).
    destruct (filter _ characters); [by apply elem_of_nil in Hin|].
    cbn [length]. lia.
Qed.

End categories_facts.

(** * Sample data *)

Section samples.

Implicit Types (table : list CharacterRow) (io : nat → InsertIO).

Lemma add_each_app (i : nat) (chars : list NewCharacter) io table :
  add_each i chars io table = table ++ added_rows i chars io.
Proof.
  revert i table. induction chars as [|char chars IH]; intros i table; cbn.
  - by rewrite app_nil_r.
  - rewrite IH. unfold addCharacter.
    destruct (insert_ok (io i)); cbn [fst]; [by rewrite <- app_assoc|done].
Qed.

Lemma added_rows_zero (i : nat) (chars : list NewCharacter) io :
  Forall (λ row, counters row = mkCurrentData 0 0 0)
    (added_rows i chars io) ∧
  (length (added_rows i chars io) ≤ length chars)%nat.
Proof.
  revert i. induction chars as [|char chars IH]; intros i; cbn.
  - split; [constructor|lia].
  - destruct (IH (S i)) as [Hzero Hlen].
    destruct (insert_ok (io i)); cbn; [|split; [done|lia]].
    split; [by constructor|lia].
Qed.

(** X20. [initializeSampleData] adds nothing to a table whose characters it
    could read.  It runs the seven inserts when the list it read is empty,
    which is the case of an empty table and also of a failed read,
    whatever the table holds then; the rows that are added are those of the
    inserts that went through, in order, with their counters at zero. *)
Theorem initializeSampleData_cases table (resp : response) io :
  answers table getCharacters_query resp →
  let result := initializeSampleData resp io table in
  (resp ≠ Error → table ≠ [] → result = table) ∧
  (resp = Error ∨ table = [] →
   result = table ++ added_rows 0 sampleCharacters io) ∧
  Forall (λ row, counters row = mkCurrentData 0 0 0)
    (added_rows 0 sampleCharacters io) ∧
  (length (added_rows 0 sampleCharacters io) ≤ 7)%nat.
Proof.
  intros Hans. cbn zeta. unfold initializeSampleData.
  destruct (added_rows_zero 0 sampleCharacters io) as [Hzero Hlen].
  split; [|split; [|split; [exact Hzero|exact Hlen]]].
  - intros Herr Hne. destruct Hans as [sorted Hperm _|]; [|done].
    change (bounded getCharacters_query sorted) with sorted.
    rewrite filter_all in Hperm by (intros ?; exact I).
    cbn [on_response]. rewrite length_fmap, <- Hperm.
    destruct table; [done|]. reflexivity.
  - intros Hcase. rewrite <- add_each_app.
    destruct Hans as [sorted Hperm _|]; [|reflexivity].
    destruct Hcase as [Herr| ->]; [done|].
    change (bounded getCharacters_query sorted) with sorted.
    rewrite filter_all in Hperm by (intros ?; exact I).
    apply Permutation_nil in Hperm as ->. reflexivity.
Qed.

End samples.

(** * The list of the manage page *)

Section manage.

Context (toLowerCase : string → string).

Implicit Types (characters : list Character).

(** X21. [filterCharacters] only removes: its result is a sublist of the
    characters, the whole list for ["all"] and an empty search; with
    another selection every character kept has that category; and
    filtering the result again with the same selection and search changes
    nothing. *)
Theorem filterCharacters_sublist characters
    (selectedCategory searchTerm : string) :
  let result :=
    ManageCharacters.filterCharacters toLowerCase characters
      selectedCategory searchTerm in
  result `sublist_of` characters ∧
  ManageCharacters.filterCharacters toLowerCase characters "all" ""
  = characters ∧
  (selectedCategory ≠ "all" →
   Forall (λ char, category char = selectedCategory) result) ∧
  ManageCharacters.filterCharacters toLowerCase result
    selectedCategory searchTerm = result.
Proof.
  cbn zeta. unfold ManageCharacters.filterCharacters.
  split; [|split; [done|split]].
  - destruct (negb _), (truthy _); cbn zeta;
      repeat (etrans; [apply sublist_filter|]); done.
  - intros Hsel. apply String.eqb_neq in Hsel. rewrite Hsel. cbn [negb].
    destruct (truthy searchTerm); cbn zeta; apply Forall_forall;
      intros char Hchar; repeat apply list_elem_of_filter in Hchar as [? Hchar];
      done.
  - destruct (negb _), (truthy _); cbn zeta;
      repeat (rewrite filter_every;
              [|intros char Hchar;
                repeat (apply list_elem_of_filter in Hchar as [? Hchar]);
                done]);
      done.
Qed.

End manage.

(** * Reading the collection *)

(** X17. [getCharacters] returns the empty list when the read fails, and
    otherwise every row of the table once, as a character, the most
    recently created first. *)
Theorem getCharacters_lists (table : list CharacterRow)
    (result : list Character) :
  getCharacters table result →
  result = [] ∨
  ∃ rows,
    result = mapRowToCharacter <$> rows ∧
    rows ≡ₚ table ∧
    StronglySorted (λ r1 r2, Row.created_at r2 ≤ Row.created_at r1) rows ∧
    length result = length table.
Proof.
  intros (resp & Hans & ->). destruct resp as [rows|]; [|by left].
  right. exists rows.
  destruct (getCharacters_newest_first table rows Hans) as [Hperm Hsorted].
  split; [done|]. split; [done|]. split; [done|].
  cbn. by rewrite length_fmap, Hperm.
Qed.

(** * Instances of the properties above *)

Lemma page_session_witness :
  [water] ≠ [] ∧
  IndexPage.session
    (foldl IndexPage.handleAnswer
       (IndexPage.startStudySession [water]
          (IndexPage.mkPage [row_A] None false))
       [(true, IndexPage.mkAnswerIO 1 true true);
        (false, IndexPage.mkAnswerIO 2 true true)])
  = Some (handled [water] [true; false]).
Proof.
  assert (H : [water] ≠ []) by discriminate.
  split; [exact H|].
  apply (page_session [row_A] [water]
           [(true, IndexPage.mkAnswerIO 1 true true);
            (false, IndexPage.mkAnswerIO 2 true true)] H).
Defined.

Lemma addCharacter_lookup_witness :
  (∀ row, row ∈ [row_A] → Row.id row ≠ "c-new") ∧
  single "c-new"
    (addCharacter (mkNewCharacter "shui" "shui3" "water" "Nature") 5
       (mkAssigned "c-new" "u-1" 5) true [row_A]).1
  = Some (inserted_row (mkNewCharacter "shui" "shui3" "water" "Nature") 5
            (mkAssigned "c-new" "u-1" 5)).
Proof.
  assert (H : ∀ row, row ∈ [row_A] → Row.id row ≠ "c-new").
  { intros row Hrow. apply list_elem_of_singleton in Hrow as ->. discriminate. }
  split; [exact H|].
  apply (addCharacter_lookup (mkNewCharacter "shui" "shui3" "water" "Nature")
           5 (mkAssigned "c-new" "u-1" 5) [row_A] H).
Defined.

Lemma add_then_delete_witness :
  (∀ row, row ∈ [row_A] → Row.id row ≠ "c-new") ∧
  deleteCharacter "c-new" true
    (addCharacter (mkNewCharacter "shui" "shui3" "water" "Nature") 5
       (mkAssigned "c-new" "u-1" 5) true [row_A]).1
  = [row_A].
Proof.
  assert (H : ∀ row, row ∈ [row_A] → Row.id row ≠ "c-new").
  { intros row Hrow. apply list_elem_of_singleton in Hrow as ->. discriminate. }
  split; [exact H|].
  apply (add_then_delete (mkNewCharacter "shui" "shui3" "water" "Nature")
           5 (mkAssigned "c-new" "u-1" 5) [row_A] H).
Defined.

Lemma updateCharacter_whole_witness :
  single "B" [row_A; row_B; row_C] = Some row_B ∧
  updateCharacter "B" (whole (mapRowToCharacter row_B)) true
    [row_A; row_B; row_C]
  = [row_A; row_B; row_C].
Proof.
  split; [reflexivity|].
  apply (updateCharacter_whole "B" [row_A; row_B; row_C] row_B). reflexivity.
Defined.

Lemma session_writes_once_witness :
  foldl IndexPage.record_card [row_A; row_B; row_C]
    [(mapRowToCharacter row_B, (false, IndexPage.mkAnswerIO 40 true true));
     (mapRowToCharacter row_C, (true, IndexPage.mkAnswerIO 41 true true))]
  = IndexPage.studied
      [(mapRowToCharacter row_B, (false, IndexPage.mkAnswerIO 40 true true));
       (mapRowToCharacter row_C, (true, IndexPage.mkAnswerIO 41 true true))]
    <$> [row_A; row_B; row_C].
Proof.
  apply (session_writes_once [row_A; row_B; row_C]).
  - by apply (bool_decide_unpack _).
  - by apply (bool_decide_unpack _).
  - repeat constructor.
Defined.


Lemma getCharacters_lists_witness :
  getCharacters [older; newer] (mapRowToCharacter <$> [newer; older]) ∧
  (mapRowToCharacter <$> [newer; older] = [] ∨
   ∃ rows,
     mapRowToCharacter <$> [newer; older] = mapRowToCharacter <$> rows ∧
     rows ≡ₚ [older; newer] ∧
     StronglySorted (λ r1 r2, Row.created_at r2 ≤ Row.created_at r1) rows ∧
     length (mapRowToCharacter <$> [newer; older]) = length [older; newer]).
Proof.
  assert (H : getCharacters [older; newer]
                (mapRowToCharacter <$> [newer; older])).
  { exists (Data [newer; older]). split; [|reflexivity].
    exact (execute_answers [older; newer] getCharacters_query). }
  split; [exact H|].
  exact (getCharacters_lists [older; newer] _ H).
Defined.

Lemma getCategories_listing_witness :
  answers [row_A; row_B; row_C] getCategories_query
    (execute [row_A; row_B; row_C] getCategories_query) ∧
  getCategories String.le (execute [row_A; row_B; row_C] getCategories_query)
  = IndexPage.categories String.le
      (mapRowToCharacter <$> [row_C; row_B; row_A]).
Proof.
  assert (H : answers [row_A; row_B; row_C] getCategories_query
                (execute [row_A; row_B; row_C] getCategories_query))
    by apply execute_answers.
  split; [exact H|].
  apply (getCategories_listing String.le [row_A; row_B; row_C] _ H).
  change (mapRowToCharacter <$> [row_C; row_B; row_A])
    with (reverse (mapRowToCharacter <$> [row_A; row_B; row_C])).
  apply reverse_Permutation.
Defined.

Lemma totalCount_characters_witness :
  CategoryFilter.totalCount
    (IndexPage.characterCounts String.le
       (mapRowToCharacter <$> [row_A; row_B; row_C]))
  = array_length
      (filter (λ char, category char ≠ "__proto__")
         (mapRowToCharacter <$> [row_A; row_B; row_C])) ∧
  array_length
    (filter (λ char, category char ≠ "__proto__")
       (mapRowToCharacter <$> [row_A; row_B; row_C])) = 3.
Proof.
  split; [|reflexivity].
  exact (proj1 (totalCount_characters String.le
                  (mapRowToCharacter <$> [row_A; row_B; row_C]))).
Defined.

Lemma initializeSampleData_cases_witness :
  answers [] getCharacters_query (Data []) ∧
  initializeSampleData (Data [])
    (λ i, mkInsertIO 0 (mkAssigned "s" "u-1" 0) (Nat.even i)) []
  = [] ++ added_rows 0 sampleCharacters
            (λ i, mkInsertIO 0 (mkAssigned "s" "u-1" 0) (Nat.even i)).
Proof.
  assert (H : answers [] getCharacters_query (Data []))
    by exact (execute_answers [] getCharacters_query).
  split; [exact H|].
  apply (initializeSampleData_cases [] (Data [])
           (λ i, mkInsertIO 0 (mkAssigned "s" "u-1" 0) (Nat.even i)) H).
  by right.
Defined.
